(** * sc::vector and its iterator (source/include/vector.h)

    A shallow embedding of the container [sc::vector<T>] and of
    [sc::MyForwardIterator<T>].

    Memory model.  A container owns one buffer, [m_storage], modelled as the
    list of its slots; the length of the list is the number of slots that
    [new T[n]] allocated.  An iterator is the signed offset of its raw pointer
    from the first slot of the buffer it was obtained from ([begin()] is 0,
    [end()] is [m_end]).  Reading or writing a slot outside the buffer has no
    defined behaviour in C++: the model stops there with [Fault i], keeping the
    values the members had at that moment.  The same holds for a read
    through a reference to slot [i] of a buffer that the call has freed.
    [throw std::out_of_range] is [Throw out_of_range], and the exception of
    a refused [new T[n]] is [Throw bad_alloc].

    Conventions.  [size_type] values, and the [int] and [unsigned] loop
    counters the source compares with them, are natural numbers: the model
    covers containers of fewer than 2^31 slots, where none of them wraps,
    and takes the allocations of the constructors and of the growth steps
    to succeed.  Where the caller chooses the count, in [reserve] and
    [assign], the functions [reserve_alloc] and [assign_ref] take the count
    as a 64-bit [size_type], the answer of [new] as a parameter and the
    32-bit counter of [assign] with its wrap-around.  An argument passed by
    [const_reference] is a value where it is held outside the container;
    [cref] and the functions [push_front_ref], [push_back_ref],
    [insert_ref] and [assign_ref] follow a reference that points into the
    container's own buffer.  The element type [T]
    comes with a decidable equality, which stands for its [operator==], with
    [operator!=] as its negation, and with the value [T0] of a
    default-initialised element.  An input range [first, last) or an
    initializer list is the list of its elements, held outside the
    container's own buffer. *)

From stdpp Require Import base numbers list.

Module sc.

(** The exceptions of a call: [std::out_of_range], thrown by the header,
    and [std::bad_alloc], which stands for what [new T[n]] throws for an
    array it refuses ([std::bad_alloc] or [std::bad_array_new_length],
    derived from it). *)
Inductive exn : Type := out_of_range | bad_alloc.

(** Result of a call: a value, a thrown exception, or an access to slot [i]
    outside the allocated buffer (slot [i] of a buffer already freed
    included). *)
Inductive res (A : Type) : Type :=
| Ok (a : A)
| Throw (e : exn)
| Fault (i : Z).
Arguments Ok {A} a.
Arguments Throw {A} e.
Arguments Fault {A} i.

Definition res_bind {A B} (r : res A) (k : A → res B) : res B :=
  match r with
  | Ok a => k a
  | Throw e => Throw e
  | Fault i => Fault i
  end.

Abbreviation iterator := Z (only parsing).

Section container.
Context {T : Type} {T_eq : EqDecision T} {T_inh : Inhabited T}.

(** Value of a default-initialised element. *)
Definition T0 : T := inhabitant.

(** [new T[n]] *)
Definition new_array (n : nat) : list T := replicate n T0.

(** ** Iterator *)

(** [operator*] on a pointer [n] slots after the start of [buf]. *)
Definition deref (buf : list T) (it : iterator) : res T :=
  if decide (0 ≤ it)%Z then
    match buf !! Z.to_nat it with
    | Some x => Ok x
    | None => Fault it
    end
  else Fault it.

(** [operator==]: [*m_ptr == *rhs_.m_ptr] *)
Definition it_eq (buf : list T) (a b : iterator) : res bool :=
  res_bind (deref buf a) (λ x,
  res_bind (deref buf b) (λ y,
  Ok (bool_decide (x = y)))).

(** [operator!=]: [*m_ptr != *rhs_.m_ptr] *)
Definition it_ne (buf : list T) (a b : iterator) : res bool :=
  res_bind (deref buf a) (λ x,
  res_bind (deref buf b) (λ y,
  Ok (bool_decide (x ≠ y)))).

(** [operator<], [operator>], [operator<=], [operator>=] compare [m_ptr]. *)
Definition it_lt (a b : iterator) : bool := bool_decide (a < b)%Z.
Definition it_gt (a b : iterator) : bool := bool_decide (a > b)%Z.
Definition it_le (a b : iterator) : bool := bool_decide (a ≤ b)%Z.
Definition it_ge (a b : iterator) : bool := bool_decide (a >= b)%Z.

(** [operator+], [operator-] with an offset, and iterator difference. *)
Definition it_add (a : iterator) (offset : Z) : iterator := (a + offset)%Z.
Definition it_sub (a : iterator) (offset : Z) : iterator := (a - offset)%Z.
Definition it_diff (a b : iterator) : Z := (a - b)%Z.

(** ** Container state *)

Record vector : Type := mk_vector {
  m_end : nat;          (* current size *)
  m_capacity : nat;     (* storage capacity *)
  m_storage : list T    (* data storage area *)
}.

(** Member functions: state passing with the three results of [res]. *)
Definition M (A : Type) : Type := vector → res A * vector.

Definition ret {A} (a : A) : M A := λ v, (Ok a, v).
Definition bind {A B} (m : M A) (k : A → M B) : M B :=
  λ v, match m v with
       | (Ok a, v') => k a v'
       | (Throw e, v') => (Throw e, v')
       | (Fault i, v') => (Fault i, v')
       end.
Definition throw {A} (e : exn) : M A := λ v, (Throw e, v).
Definition fault {A} (i : Z) : M A := λ v, (Fault i, v).

Notation "'let*' x ':=' m 'in' k" := (bind m (λ x, k))
  (at level 10, x name, m at level 100, k at level 200).
Notation "'do' m 'then' k" := (bind m (λ _, k))
  (at level 10, m at level 100, k at level 200).

Definition get_end : M nat := λ v, (Ok (m_end v), v).
Definition get_capacity : M nat := λ v, (Ok (m_capacity v), v).
Definition set_end (n : nat) : M unit :=
  λ v, (Ok tt, mk_vector n (m_capacity v) (m_storage v)).
Definition set_capacity (n : nat) : M unit :=
  λ v, (Ok tt, mk_vector (m_end v) n (m_storage v)).
Definition set_storage (buf : list T) : M unit :=
  λ v, (Ok tt, mk_vector (m_end v) (m_capacity v) buf).

(** [m_storage[i]] read, and [*it] read through an iterator. *)
Definition load (i : Z) : M T := λ v, (deref (m_storage v) i, v).

(** [m_storage[i] = x], and [*it = x]. *)
Definition store (i : Z) (x : T) : M unit :=
  λ v, if decide (0 ≤ i < Z.of_nat (length (m_storage v)))%Z
       then (Ok tt, mk_vector (m_end v) (m_capacity v)
                              (<[Z.to_nat i := x]> (m_storage v)))
       else (Fault i, v).

(** [buf[i] = x] on a buffer that is not yet the container's. *)
Definition store_to (buf : list T) (i : Z) (x : T) : M (list T) :=
  if decide (0 ≤ i < Z.of_nat (length buf))%Z
  then ret (<[Z.to_nat i := x]> buf)
  else fault i.

(** [vec.m_storage[i]] read on another container. *)
Definition load_from (vec : vector) (i : Z) : M T :=
  λ v, (deref (m_storage vec) i, v).

(** [m_storage[i].~T()]: the slot is reached, its bytes stay. *)
Definition destroy (i : Z) : M unit := do load i then ret tt.

(** Counted loops.  The bounds of every [for] of the header are fixed
    while it runs, so a loop is its number of rounds and its first index. *)
Fixpoint iter_up {St} (n : nat) (i : Z) (body : Z → St → M St) (s : St) : M St :=
  match n with
  | O => ret s
  | S n' => let* s' := body i s in iter_up n' (i + 1)%Z body s'
  end.

Fixpoint iter_down {St} (n : nat) (i : Z) (body : Z → St → M St) (s : St) : M St :=
  match n with
  | O => ret s
  | S n' => let* s' := body i s in iter_down n' (i - 1)%Z body s'
  end.

(** [for (i = lo; i < hi; i++)] *)
Definition for_lt {St} (lo hi : Z) (body : Z → St → M St) (s : St) : M St :=
  iter_up (Z.to_nat (hi - lo)) lo body s.

(** [for (i = hi; i > lo; i--)] *)
Definition for_gt {St} (hi lo : Z) (body : Z → St → M St) (s : St) : M St :=
  iter_down (Z.to_nat (hi - lo)) hi body s.

(** [for (i = hi; i >= lo; i--)] *)
Definition for_ge {St} (hi lo : Z) (body : Z → St → M St) (s : St) : M St :=
  iter_down (Z.to_nat (hi - lo + 1)) hi body s.

(** [std::copy(xs.begin(), xs.end(), m_storage + i)], and the loops
    [for (it = first; it < last; it++, i++) m_storage[i] = *it]. *)
Fixpoint copy_in (xs : list T) (i : Z) : M unit :=
  match xs with
  | [] => ret tt
  | x :: xs' => do store i x then copy_in xs' (i + 1)%Z
  end.

(** ** Construction *)

(** [explicit vector(size_type cp = 0)] *)
Definition vector_new (cp : nat) : vector :=
  mk_vector cp cp (new_array cp).

(** [vector(const vector& vec)] *)
Definition vector_copy (vec : vector) : res unit * vector :=
  for_lt 0 (Z.of_nat (m_end vec))
    (λ i _, let* x := load_from vec i in store i x) tt
    (mk_vector (m_end vec) (m_capacity vec) (new_array (m_capacity vec))).

(** [vector(const std::initializer_list<T>& il)] *)
Definition vector_of_list (il : list T) : res unit * vector :=
  copy_in il 0 (mk_vector (length il) (length il) (new_array (length il))).

(** [vector(InputItr first, InputItr last)] *)
Definition vector_of_range (xs : list T) : res unit * vector :=
  let dif := length xs in
  copy_in xs 0 (mk_vector dif dif (new_array dif)).

(** ** Iterators and capacity *)

Definition begin_ : M iterator := ret 0%Z.
Definition end_ : M iterator := let* e := get_end in ret (Z.of_nat e).

Definition size (v : vector) : nat := m_end v.
Definition capacity (v : vector) : nat := m_capacity v.
Definition empty (v : vector) : bool := bool_decide (m_end v = 0).

(** [bool full() const] *)
Definition full : M bool :=
  let* cap := get_capacity in
  let* e := get_end in
  ret (bool_decide (cap = e)).

(** [void reserve(size_type alocar)] with the array granted, as the
    growth steps of the modifiers call it; [reserve_alloc] is the call
    with a count of the caller and an allocator that may refuse it. *)
Definition reserve (alocar : nat) : M unit :=
  let* cap := get_capacity in
  if decide (alocar ≤ cap) then ret tt
  else
    let* e := get_end in
    let* newstorage :=
      for_lt 0 (Z.of_nat e) (λ i buf, let* x := load i in store_to buf i x)
             (new_array alocar) in
    do set_capacity alocar then
    set_storage newstorage.

(** [void shrink_to_fit()] *)
Definition shrink_to_fit : M unit :=
  let* cap := get_capacity in
  let* e := get_end in
  if decide (e < cap) then
    let* newstorage :=
      for_lt 0 (Z.of_nat e) (λ i buf, let* x := load i in store_to buf i x)
             (new_array e) in
    do set_capacity e then
    set_storage newstorage
  else ret tt.

(** [vector& operator=(const vector& vec)], for [vec] another object
    ([this == &vec] returns at once and changes nothing). *)
Definition copy_assign (vec : vector) : M unit :=
  let* cap := get_capacity in
  if decide (m_end vec ≤ cap) then
    do for_lt 0 (Z.of_nat (m_end vec))
         (λ ii _, let* x := load_from vec ii in store ii x) tt then
    set_end (m_end vec)
  else
    let* maior :=
      for_lt 0 (Z.of_nat (m_end vec))
        (λ i buf, let* x := load_from vec i in store_to buf i x)
        (new_array (m_end vec)) in
    do set_end (m_end vec) then
    do set_capacity (m_end vec) then
    set_storage maior.

(** ** Modifiers *)

(** [void clear()] *)
Definition clear : M unit :=
  let* e := get_end in
  do for_lt 0 (Z.of_nat e) (λ i _, destroy i) tt then
  set_end 0.

(** [void push_front(const_reference st)] for [st] a value held outside
    the container; [push_front_ref] follows the reference. *)
Definition push_front (st : T) : M unit :=
  let* cap := get_capacity in
  do (if decide (cap = 0) then reserve 10
      else let* f := full in
           if f then reserve (2 * cap) else ret tt) then
  let* e := get_end in
  do for_gt (Z.of_nat e) 0
       (λ i _, let* x := load (i - 1) in store i x) tt then
  do store 0 st then
  set_end (e + 1).

(** [void push_back(const_reference st)] for [st] a value held outside
    the container; [push_back_ref] follows the reference. *)
Definition push_back (st : T) : M unit :=
  let* cap := get_capacity in
  let* e := get_end in
  do (if decide (cap = 0) then reserve 10
      else if decide (e = cap) then reserve (2 * cap) else ret tt) then
  let* e := get_end in
  do store (Z.of_nat e) st then
  set_end (e + 1).

(** [void pop_back()] *)
Definition pop_back : M unit :=
  let* e := get_end in
  if decide (0 < e) then
    do set_end (e - 1) then
    destroy (Z.of_nat (e - 1))
  else ret tt.

(** [void pop_front()] *)
Definition pop_front : M unit :=
  let* e := get_end in
  if decide (0 < e) then
    do for_lt 0 (Z.of_nat e) (λ i _, let* x := load (i + 1) in store i x) tt then
    set_end (e - 1)
  else ret tt.

(** [iterator insert(iterator pos_, const_reference value_)] for [value_]
    a value held outside the container; the overload on [const_iterator]
    has the same body, and [insert_ref] follows the reference. *)
Definition insert (pos_ : iterator) (value_ : T) : M iterator :=
  let* b := begin_ in
  let* e := end_ in
  if decide (pos_ < b ∨ pos_ > e)%Z then throw out_of_range
  else
    let dif := (pos_ - b)%Z in
    let* f := full in
    do (if f then let* cap := get_capacity in reserve (cap * 2)
        else ret tt) then
    let* n := get_end in
    do set_end (n + 1) then
    let* b := begin_ in
    let pos_ := (b + dif)%Z in
    let* e := end_ in
    do for_gt (e - 1) pos_
         (λ it _, let* x := load (it - 1) in store it x) tt then
    do store pos_ value_ then
    ret pos_.

(** [iterator insert(iterator pos_, InputItr first_, InputItr last_)]; the
    overload on [const_iterator] has the same body.  [xs] is the range. *)
Definition insert_range (pos_ : iterator) (xs : list T) : M iterator :=
  let* b := begin_ in
  let* e := end_ in
  if decide (pos_ < b ∨ pos_ > e)%Z then throw out_of_range
  else
    let dif := length xs in
    let distancia := (pos_ - b)%Z in
    let* f := full in
    let* n := get_end in
    let* cap := get_capacity in
    do (if decide (f = true ∨ cap < n + dif) then reserve (cap + dif)
        else ret tt) then
    do set_end (n + dif) then
    let* b := begin_ in
    let pos_ := (b + distancia)%Z in
    let* n := get_end in
    let* e := end_ in
    do for_gt (e - 1) pos_
         (λ it i, let* x := load (it - Z.of_nat dif) in
                  do store i x then ret (i - 1)%Z)
         (Z.of_nat n - 1)%Z then
    do copy_in xs pos_ then
    ret pos_.

(** [iterator insert(iterator pos_, const std::initializer_list<value_type>&)];
    the overload on [const_iterator] has the same body. *)
Definition insert_list (pos_ : iterator) (ilist_ : list T) : M iterator :=
  let* b := begin_ in
  let distancia := (pos_ - b)%Z in
  let n_elem := length ilist_ in
  let* e := end_ in
  if decide (pos_ < b ∨ pos_ > e)%Z then throw out_of_range
  else
    let* f := full in
    do (if f then let* cap := get_capacity in reserve (cap + n_elem)
        else ret tt) then
    let* n := get_end in
    do set_end (n + n_elem) then
    let* b := begin_ in
    let pos_ := (b + distancia)%Z in
    let* e := end_ in
    do for_ge (e - 1) pos_
         (λ it _, let* x := load (it - Z.of_nat n_elem) in store it x) tt then
    do copy_in ilist_ pos_ then
    ret pos_.

(** [void assign(size_type count_, const_reference value_)] for a count
    below 2^32, a value held outside the container and an array that
    [new] grants; [assign_ref] has the 32-bit counter of the loops, the
    reference and the allocator. *)
Definition assign (count_ : nat) (value_ : T) : M unit :=
  let* sz := get_end in
  if decide (count_ ≤ sz) then
    do set_end count_ then
    for_lt 0 (Z.of_nat count_) (λ i _, store i value_) tt
  else
    let newStorage := new_array count_ in
    do set_capacity count_ then
    do set_end count_ then
    do set_storage newStorage then
    for_lt 0 (Z.of_nat count_) (λ i _, store i value_) tt.

(** [void assign(const std::initializer_list<T>& ilist)] *)
Definition assign_list (ilist : list T) : M unit :=
  let* sz := get_end in
  if decide (length ilist ≤ sz) then
    do set_end (length ilist) then
    copy_in ilist 0
  else
    let newStorage := new_array (length ilist) in
    do set_capacity (length ilist) then
    do set_end (length ilist) then
    do set_storage newStorage then
    copy_in ilist 0.

(** [void assign(InputItr first, InputItr last)] *)
Definition assign_range (xs : list T) : M unit :=
  let dif := length xs in
  let* sz := get_end in
  if decide (dif ≤ sz) then
    do set_end dif then
    copy_in xs 0
  else
    let newStorage := new_array dif in
    do set_capacity dif then
    do set_end dif then
    do set_storage newStorage then
    copy_in xs 0.

(** [iterator erase(iterator first, iterator last)]; the overload on
    [const_iterator] has the same body. *)
Definition erase_range (first last : iterator) : M iterator :=
  let dif := (last - first)%Z in
  let* b := begin_ in
  let* e := end_ in
  if decide (first > last ∨ (first < b ∨ last > e))%Z
  then throw out_of_range
  else
    do for_lt first (e - dif)
         (λ it _, let* x := load (it + dif) in store it x) tt then
    let* n := get_end in
    do set_end (Z.to_nat (Z.of_nat n - dif)) then
    ret first.

(** [iterator erase(iterator pos)]; the overload on [const_iterator] has
    the same body. *)
Definition erase (pos : iterator) : M iterator :=
  let* b := begin_ in
  let* e := end_ in
  if decide (pos >= b ∧ pos < e)%Z then
    do for_lt pos (e - 1)
         (λ it _, let* x := load (it + 1) in store it x) tt then
    let* n := get_end in
    do set_end (n - 1) then
    ret pos
  else throw out_of_range.

(** ** Element access *)

(** [back()], const and non-const *)
Definition back (v : vector) : res T :=
  if decide (0 < m_end v)
  then deref (m_storage v) (Z.of_nat (m_end v - 1))
  else Throw out_of_range.

(** [front()], const and non-const *)
Definition front (v : vector) : res T :=
  if decide (0 < m_end v)
  then deref (m_storage v) 0
  else Throw out_of_range.

(** [operator[](size_type idx)] *)
Definition index (idx : nat) (v : vector) : res T :=
  deref (m_storage v) (Z.of_nat idx).

(** [at(size_type idx)], const and non-const *)
Definition at_ (idx : nat) (v : vector) : res T :=
  if decide (idx < size v ∧ 0 ≤ idx)
  then deref (m_storage v) (Z.of_nat idx)
  else Throw out_of_range.

(** [friend void swap(vector<T>& first_, vector<T>& second_)] *)
Definition swap (first_ second_ : vector) : vector * vector :=
  (mk_vector (m_end second_) (m_capacity second_) (m_storage second_),
   mk_vector (m_end first_) (m_capacity first_) (m_storage first_)).

(** ** Operators *)

(** The loop of [operator==], [n] rounds from index [i]. *)
Fixpoint eq_loop (n i : nat) (a b : vector) : res bool :=
  match n with
  | O => Ok true
  | S n' =>
      res_bind (at_ i a) (λ x,
      res_bind (at_ i b) (λ y,
      if decide (x ≠ y) then Ok false else eq_loop n' (S i) a b))
  end.

(** [bool operator==(const vector<T>& a, const vector<T>& b)] *)
Definition vec_eq (a b : vector) : res bool :=
  if decide (size a = size b) then eq_loop (size b) 0 a b else Ok false.

(** [bool operator!=(const vector<T>& a, const vector<T>& b)] *)
Definition vec_ne (a b : vector) : res bool :=
  res_bind (vec_eq a b) (λ r, Ok (if r then false else true)).


(** ** Notions used by the statements *)

(** The live elements, slots [0, size). *)
Definition live (v : vector) : list T := take (m_end v) (m_storage v).

(** Representation invariant: [m_capacity] is the number of allocated
    slots and the live elements fit in them. *)
Definition wf (v : vector) : Prop :=
  m_end v ≤ m_capacity v ∧ length (m_storage v) = m_capacity v.

(** The public operations that change a container. *)
Inductive operation : Type :=
| Reserve (alocar : nat)
| ShrinkToFit
| CopyAssign (vec : vector)
| Clear
| PushFront (st : T)
| PushBack (st : T)
| PopBack
| PopFront
| Insert (pos_ : iterator) (value_ : T)
| InsertRange (pos_ : iterator) (xs : list T)
| InsertList (pos_ : iterator) (ilist_ : list T)
| Assign (count_ : nat) (value_ : T)
| AssignList (ilist : list T)
| AssignRange (xs : list T)
| EraseRange (first last : iterator)
| Erase (pos : iterator).

(** State in which a call leaves the container, whatever its result. *)
Definition state_after {A} (m : M A) (v : vector) : vector := (m v).2.

(** A call that leaves [m_capacity] as it is, and one that can only raise
    it, in every result. *)
Definition cap_kept {A} (m : M A) : Prop :=
  ∀ v, m_capacity (state_after m v) = m_capacity v.
Definition cap_grows {A} (m : M A) : Prop :=
  ∀ v, m_capacity v ≤ m_capacity (state_after m v).

Definition run_op (op : operation) : vector → vector :=
  match op with
  | Reserve n => state_after (reserve n)
  | ShrinkToFit => state_after shrink_to_fit
  | CopyAssign vec => state_after (copy_assign vec)
  | Clear => state_after clear
  | PushFront st => state_after (push_front st)
  | PushBack st => state_after (push_back st)
  | PopBack => state_after pop_back
  | PopFront => state_after pop_front
  | Insert pos_ value_ => state_after (insert pos_ value_)
  | InsertRange pos_ xs => state_after (insert_range pos_ xs)
  | InsertList pos_ ilist_ => state_after (insert_list pos_ ilist_)
  | Assign count_ value_ => state_after (assign count_ value_)
  | AssignList ilist => state_after (assign_list ilist)
  | AssignRange xs => state_after (assign_range xs)
  | EraseRange first last => state_after (erase_range first last)
  | Erase pos => state_after (erase pos)
  end.

(** The calls that replace the buffer by a smaller one: [shrink_to_fit],
    and the three [assign] with a count above the size and below the
    capacity. *)
Definition may_shrink (op : operation) (v : vector) : bool :=
  match op with
  | ShrinkToFit => true
  | Assign count_ _ =>
      bool_decide (m_end v < count_ ∧ count_ < m_capacity v)
  | AssignList xs | AssignRange xs =>
      bool_decide (m_end v < length xs ∧ length xs < m_capacity v)
  | _ => false
  end.

(** The operations for which a lower capacity is expected: explicit
    [shrink_to_fit] and copy-assignment. *)
Definition shrink_or_reassign (op : operation) : bool :=
  match op with
  | ShrinkToFit | CopyAssign _ => true
  | _ => false
  end.

(** Two states with the same size, capacity and number of slots, and a
    call that keeps these three in every result. *)
Definition same_shape (v v' : vector) : Prop :=
  m_end v' = m_end v ∧ m_capacity v' = m_capacity v ∧
  length (m_storage v') = length (m_storage v).
Definition shape_kept {A} (m : M A) : Prop :=
  ∀ v, same_shape v (state_after m v).

(** The containers an operation reads besides its own. *)
Definition sources_wf (op : operation) : Prop :=
  match op with
  | CopyAssign vec => wf vec
  | _ => True
  end.

(** The two calls that raise the size above the capacity: the
    single-element [insert] at a valid position of a container of capacity
    0, and the initializer-list [insert] at a valid position of a
    container that is not full and has no room for the list. *)
Definition overfills (op : operation) (v : vector) : bool :=
  match op with
  | Insert pos_ _ =>
      bool_decide (m_capacity v = 0 ∧ (0 ≤ pos_ ≤ Z.of_nat (m_end v))%Z)
  | InsertList pos_ ilist_ =>
      bool_decide ((0 ≤ pos_ ≤ Z.of_nat (m_end v))%Z ∧
                   m_end v ≠ m_capacity v ∧
                   m_capacity v < m_end v + length ilist_)
  | _ => false
  end.

(** ** Calls with the arguments a caller can pass *)

(** A [const_reference] argument: the address of a value held outside the
    container, or the address of slot [i] of the buffer the container has
    when the call is made ([v.push_back(v[0])]). *)
Inductive cref : Type :=
| Outside (x : T)
| Slot (i : Z).

(** Reading through the reference.  [moved] tells whether the call has
    replaced the buffer since it began: a [Slot] then points into the
    buffer that [delete[]] has freed. *)
Definition read_cref (st : cref) (moved : bool) : M T :=
  match st with
  | Outside x => ret x
  | Slot i => if moved then fault i else load i
  end.

(** [reserve(alocar)], with what it did to the buffer: it returns before
    [new] exactly when [alocar <= m_capacity], and replaces and frees the
    buffer otherwise. *)
Definition reserve_moves (alocar : nat) : M bool :=
  let* cap := get_capacity in
  do reserve alocar then
  ret (bool_decide (cap < alocar)).

(** [void push_front(const_reference st)]: [st] is read after the growth
    and after the shift. *)
Definition push_front_ref (st : cref) : M unit :=
  let* cap := get_capacity in
  let* moved :=
    (if decide (cap = 0) then reserve_moves 10
     else let* f := full in
          if f then reserve_moves (2 * cap) else ret false) in
  let* e := get_end in
  do for_gt (Z.of_nat e) 0
       (λ i _, let* x := load (i - 1) in store i x) tt then
  let* x := read_cref st moved in
  do store 0 x then
  set_end (e + 1).

(** [void push_back(const_reference st)]: [st] is read after the
    growth. *)
Definition push_back_ref (st : cref) : M unit :=
  let* cap := get_capacity in
  let* e := get_end in
  let* moved :=
    (if decide (cap = 0) then reserve_moves 10
     else if decide (e = cap) then reserve_moves (2 * cap) else ret false) in
  let* e := get_end in
  let* x := read_cref st moved in
  do store (Z.of_nat e) x then
  set_end (e + 1).

(** [iterator insert(iterator pos_, const_reference value_)]: [value_] is
    read after the growth and after the shift. *)
Definition insert_ref (pos_ : iterator) (value_ : cref) : M iterator :=
  let* b := begin_ in
  let* e := end_ in
  if decide (pos_ < b ∨ pos_ > e)%Z then throw out_of_range
  else
    let dif := (pos_ - b)%Z in
    let* f := full in
    let* moved :=
      (if f then let* cap := get_capacity in reserve_moves (cap * 2)
       else ret false) in
    let* n := get_end in
    do set_end (n + 1) then
    let* b := begin_ in
    let pos_ := (b + dif)%Z in
    let* e := end_ in
    do for_gt (e - 1) pos_
         (λ it _, let* x := load (it - 1) in store it x) tt then
    let* x := read_cref value_ moved in
    do store pos_ x then
    ret pos_.

(** [new T[n]] for a count [n] that the caller chooses: the platform
    grants the array or refuses it, and [new] then throws. *)
Definition new_T (grants : N → bool) (n : N) : M (list T) :=
  if grants n then ret (new_array (N.to_nat n)) else throw bad_alloc.

(** [void reserve(size_type alocar)] as a caller calls it, with any
    [alocar] of [size_type]. *)
Definition reserve_alloc (grants : N → bool) (alocar : N) : M unit :=
  let* cap := get_capacity in
  if decide (alocar ≤ N.of_nat cap)%N then ret tt
  else
    let* newstorage := new_T grants alocar in
    let* e := get_end in
    let* newstorage :=
      for_lt 0 (Z.of_nat e) (λ i buf, let* x := load i in store_to buf i x)
             newstorage in
    do set_capacity (N.to_nat alocar) then
    set_storage newstorage.

(** [for (auto i{0u}; i < hi; i++) body], with its 32-bit counter.  The
    loop is run for at most [fuel] rounds; [None] says that it has not
    come to its end by then. *)
Fixpoint loop_u32 (fuel : nat) (i hi : Z) (body : Z → M unit)
    : M (option unit) :=
  match fuel with
  | O => ret None
  | S fuel' =>
      if decide (i < hi)%Z then
        do body i then loop_u32 fuel' ((i + 1) mod 2 ^ 32)%Z hi body
      else ret (Some tt)
  end.

(** [void assign(size_type count_, const_reference value_)] as a caller
    calls it: any [count_] of [size_type], [value_] read at every round of
    the fill loop, in the second branch after [delete [] m_storage]. *)
Definition assign_ref (grants : N → bool) (fuel : nat)
    (count_ : N) (value_ : cref) : M (option unit) :=
  let* sz := get_end in
  if decide (count_ ≤ N.of_nat sz)%N then
    do set_end (N.to_nat count_) then
    loop_u32 fuel 0 (Z.of_N count_)
      (λ i, let* x := read_cref value_ false in store i x)
  else
    let* newStorage := new_T grants count_ in
    do set_capacity (N.to_nat count_) then
    do set_end (N.to_nat count_) then
    do set_storage newStorage then
    loop_u32 fuel 0 (Z.of_N count_)
      (λ i, let* x := read_cref value_ true in store i x).

(** An allocator that grants the arrays of fewer than [limit] elements
    and refuses the others. *)
Definition grants_below (limit : N) : N → bool := λ n, (n <? limit)%N.

End container.

Arguments vector T : clear implicits.
Arguments operation T : clear implicits.
Arguments M T A : clear implicits.

Notation "'let*' x ':=' m 'in' k" := (bind m (λ x, k))
  (at level 10, x name, m at level 100, k at level 200).
Notation "'do' m 'then' k" := (bind m (λ _, k))
  (at level 10, m at level 100, k at level 200).

(** Containers of [int] used as concrete inputs. *)

(** [sc::vector<int> v;] *)
Definition v_empty : vector Z := vector_new 0.

(** [sc::vector<int> v{1, 2, 3};] *)
Definition v_123 : vector Z := (vector_of_list [1; 2; 3]%Z).2.

(** [sc::vector<int> v{5, 7, 5};] *)
Definition v_575 : vector Z := (vector_of_list [5; 7; 5]%Z).2.

(** [sc::vector<int> v; v.push_back(1); v.push_back(2); v.push_back(3);] *)
Definition v_pushed : vector Z :=
  state_after (push_back 3%Z)
    (state_after (push_back 2%Z) (state_after (push_back 1%Z) v_empty)).

Section proofs.
Context {T : Type} {T_eq : EqDecision T} {T_inh : Inhabited T}.
Implicit Types (v vec : vector T) (buf xs : list T) (x y : T) (i : Z).

(** ** Slots *)

Lemma deref_Ok buf i x :
  deref buf i = Ok x ↔ (0 ≤ i)%Z ∧ buf !! Z.to_nat i = Some x.
Proof.
  unfold deref. case_decide.
  - destruct (buf !! Z.to_nat i) eqn:E.
    + split; [intros [= ->]; done | intros [_ [= ->]]; done].
    + split; [done | intros [_ ?]; done].
  - split; [done | intros [? _]; lia].
Qed.

Lemma deref_nat buf (n : nat) x :
  buf !! n = Some x → deref buf (Z.of_nat n) = Ok x.
Proof. intros E. apply deref_Ok. rewrite Nat2Z.id. split; [lia | done]. Qed.

Lemma deref_in_bounds buf i :
  (0 ≤ i < Z.of_nat (length buf))%Z → ∃ x, deref buf i = Ok x.
Proof.
  intros Hi. destruct (lookup_lt_is_Some_2 buf (Z.to_nat i)) as [x E]; [lia|].
  exists x. apply deref_Ok. split; [lia | done].
Qed.

Lemma deref_not_Throw buf i e : deref buf i ≠ Throw e.
Proof. unfold deref. case_decide; [destruct (buf !! _)|]; done. Qed.

Lemma wf_live_length v : wf v → length (live v) = m_end v.
Proof. intros [? ?]. unfold live. rewrite length_take. lia. Qed.

Lemma wf_live_lookup v (n : nat) :
  n < m_end v → live v !! n = m_storage v !! n.
Proof. intros. unfold live. by rewrite lookup_take_lt. Qed.

Lemma wf_slot v (n : nat) :
  wf v → n < m_end v → ∃ x, m_storage v !! n = Some x.
Proof. intros [? ?] ?. apply lookup_lt_is_Some_2. lia. Qed.

(** ** Iterator equality *)

(** C3: [==] and [!=] on iterators compare the values the two iterators
    point to, not their positions.  For iterators [a] and [b] into live
    slots holding [x] and [y], [a == b] is [x = y] and [a != b] is its
    negation; so iterators on different slots with equal values compare
    equal. *)
Theorem iterator_equality_by_value v (a b : iterator) :
  wf v → (0 ≤ a < Z.of_nat (m_end v))%Z → (0 ≤ b < Z.of_nat (m_end v))%Z →
  ∃ x y,
    live v !! Z.to_nat a = Some x ∧ live v !! Z.to_nat b = Some y ∧
    it_eq (m_storage v) a b = Ok (bool_decide (x = y)) ∧
    it_ne (m_storage v) a b = Ok (negb (bool_decide (x = y))) ∧
    (a ≠ b → x = y → it_eq (m_storage v) a b = Ok true).
Proof.
  intros Hwf Ha Hb.
  destruct (wf_slot v (Z.to_nat a) Hwf) as [x Hx]; [lia|].
  destruct (wf_slot v (Z.to_nat b) Hwf) as [y Hy]; [lia|].
  exists x, y.
  assert (deref (m_storage v) a = Ok x) as Da by (apply deref_Ok; split; [lia|done]).
  assert (deref (m_storage v) b = Ok y) as Db by (apply deref_Ok; split; [lia|done]).
  rewrite !wf_live_lookup by lia.
  unfold it_eq, it_ne. rewrite Da, Db. simpl.
  repeat split; try done.
  - f_equal. by rewrite bool_decide_not.
  - intros _ ->. by rewrite bool_decide_eq_true_2.
Qed.

(** ** Checked element access *)

(** C5: [at(idx)] throws out_of_range exactly when [idx ≥ size] and
    otherwise returns the element at index [idx]; [front()] and [back()]
    throw out_of_range exactly when the container is empty and otherwise
    return the first and the last live element. *)
Theorem checked_access_boundary v (idx : nat) :
  wf v →
  (at_ idx v = Throw out_of_range ↔ size v ≤ idx) ∧
  (idx < size v → ∃ x, live v !! idx = Some x ∧ at_ idx v = Ok x) ∧
  (front v = Throw out_of_range ↔ size v = 0) ∧
  (size v ≠ 0 → ∃ x, head (live v) = Some x ∧ front v = Ok x) ∧
  (back v = Throw out_of_range ↔ size v = 0) ∧
  (size v ≠ 0 → ∃ x, last (live v) = Some x ∧ back v = Ok x).
Proof.
  intros Hwf. unfold at_, front, back, size. repeat split.
  - case_decide; [|lia]. intros E. by apply deref_not_Throw in E.
  - intros. case_decide; [lia | done].
  - intros Hi. destruct (wf_slot v idx Hwf Hi) as [x Hx]. exists x.
    rewrite wf_live_lookup by done. split; [done|].
    case_decide; [|lia]. by apply deref_nat.
  - case_decide; [|lia]. intros E. by apply deref_not_Throw in E.
  - intros. case_decide; [lia | done].
  - intros Hn. destruct (wf_slot v 0 Hwf) as [x Hx]; [lia|]. exists x.
    rewrite head_lookup, wf_live_lookup by lia. split; [done|].
    case_decide; [|lia]. by apply (deref_nat _ 0).
  - case_decide; [|lia]. intros E. by apply deref_not_Throw in E.
  - intros. case_decide; [lia | done].
  - intros Hn. destruct (wf_slot v (m_end v - 1) Hwf) as [x Hx]; [lia|].
    exists x. rewrite last_lookup, wf_live_length by done.
    replace (Nat.pred (m_end v)) with (m_end v - 1) by lia.
    rewrite wf_live_lookup by lia. split; [done|].
    case_decide; [|lia]. by apply deref_nat.
Qed.

(** ** Position checks of insert and erase *)

(** C4: [insert] with a position outside [begin(), end()] and [erase] with
    a position outside [begin(), end()), or a range that is reversed or
    leaves [begin(), end()], throw out_of_range; the check comes before any
    reallocation or shift, so the container is left as it was: same size,
    same capacity, same contents. *)
Theorem out_of_range_before_any_change v :
  (∀ pos x, (pos < 0 ∨ pos > Z.of_nat (m_end v))%Z →
     insert pos x v = (Throw out_of_range, v)) ∧
  (∀ pos xs, (pos < 0 ∨ pos > Z.of_nat (m_end v))%Z →
     insert_range pos xs v = (Throw out_of_range, v)) ∧
  (∀ pos xs, (pos < 0 ∨ pos > Z.of_nat (m_end v))%Z →
     insert_list pos xs v = (Throw out_of_range, v)) ∧
  (∀ pos, (pos < 0 ∨ pos >= Z.of_nat (m_end v))%Z →
     erase pos v = (Throw out_of_range, v)) ∧
  (∀ first last,
     (first > last ∨ first < 0 ∨ last > Z.of_nat (m_end v))%Z →
     erase_range first last v = (Throw out_of_range, v)).
Proof.
  repeat split.
  - intros pos x Hpos. unfold insert, bind, begin_, end_, get_end, ret. simpl.
    case_decide; [done | lia].
  - intros pos xs Hpos.
    unfold insert_range, bind, begin_, end_, get_end, ret. simpl.
    case_decide; [done | lia].
  - intros pos xs Hpos.
    unfold insert_list, bind, begin_, end_, get_end, ret. simpl.
    case_decide; [done | lia].
  - intros pos Hpos. unfold erase, bind, begin_, end_, get_end, ret. simpl.
    case_decide; [lia | done].
  - intros first last Hr.
    unfold erase_range, bind, begin_, end_, get_end, ret. simpl.
    case_decide; [done | lia].
Qed.

(** ** Loops *)

(** Invariant rule for an ascending loop that neither throws nor leaves
    the buffer: [I k] holds after [k] rounds. *)
Lemma iter_up_inv {St} (I : nat → St → vector T → Prop)
    n i (body : Z → St → M T St) s v :
  I 0 s v →
  (∀ k s v, k < n → I k s v →
     ∃ s' v', body (i + Z.of_nat k)%Z s v = (Ok s', v') ∧ I (S k) s' v') →
  ∃ s' v', iter_up n i body s v = (Ok s', v') ∧ I n s' v'.
Proof.
  induction n as [|n IH] in I, i, s, v |- *; intros H0 Hstep; simpl.
  - by exists s, v.
  - unfold bind.
    destruct (Hstep 0 s v) as (s1 & v1 & E & I1); [lia | done |].
    rewrite Z.add_0_r in E. rewrite E.
    apply (IH (λ k, I (S k))); [done|].
    intros k s' v' Hk HI.
    destruct (Hstep (S k) s' v') as (s2 & v2 & E2 & I2); [lia | done |].
    exists s2, v2. split; [|done]. rewrite <- E2. f_equal. lia.
Qed.

(** The same rule for a descending loop. *)
Lemma iter_down_inv {St} (I : nat → St → vector T → Prop)
    n i (body : Z → St → M T St) s v :
  I 0 s v →
  (∀ k s v, k < n → I k s v →
     ∃ s' v', body (i - Z.of_nat k)%Z s v = (Ok s', v') ∧ I (S k) s' v') →
  ∃ s' v', iter_down n i body s v = (Ok s', v') ∧ I n s' v'.
Proof.
  induction n as [|n IH] in I, i, s, v |- *; intros H0 Hstep; simpl.
  - by exists s, v.
  - unfold bind.
    destruct (Hstep 0 s v) as (s1 & v1 & E & I1); [lia | done |].
    rewrite Z.sub_0_r in E. rewrite E.
    apply (IH (λ k, I (S k))); [done|].
    intros k s' v' Hk HI.
    destruct (Hstep (S k) s' v') as (s2 & v2 & E2 & I2); [lia | done |].
    exists s2, v2. split; [|done]. rewrite <- E2. f_equal. lia.
Qed.

Lemma store_in_bounds v (n : nat) x :
  n < length (m_storage v) →
  store (Z.of_nat n) x v =
    (Ok tt, mk_vector (m_end v) (m_capacity v) (<[n:=x]> (m_storage v))).
Proof. intros. unfold store. rewrite Nat2Z.id. case_decide; [done | lia]. Qed.

Lemma load_in_bounds v (n : nat) x :
  m_storage v !! n = Some x → load (Z.of_nat n) v = (Ok x, v).
Proof. intros E. unfold load. by rewrite (deref_nat _ _ _ E). Qed.

Lemma fill_step (k : nat) x buf :
  k < length buf →
  <[k:=x]> (replicate k x ++ drop k buf) = replicate (S k) x ++ drop (S k) buf.
Proof.
  revert buf. induction k as [|k IH]; intros [|y buf] Hk; simpl in *; try lia.
  - done.
  - f_equal. apply IH. lia.
Qed.

(** [for (i = 0; i < count; i++) m_storage[i] = value;] *)
Lemma fill_loop v (count : nat) x :
  count ≤ length (m_storage v) →
  for_lt 0 (Z.of_nat count) (λ i _, store i x) tt v =
    (Ok tt, mk_vector (m_end v) (m_capacity v)
                      (replicate count x ++ drop count (m_storage v))).
Proof.
  intros Hc. unfold for_lt. rewrite Z.sub_0_r, Nat2Z.id.
  destruct (iter_up_inv
    (λ k _ v', v' = mk_vector (m_end v) (m_capacity v)
                      (replicate k x ++ drop k (m_storage v)))
    count 0 (λ i (_ : unit), store i x) tt v) as ([] & v' & E & ->).
  - simpl. rewrite drop_0. by destruct v.
  - intros k [] ? Hk ->. eexists tt, _. split; [|reflexivity].
    rewrite Z.add_0_l, store_in_bounds; simpl.
    + by rewrite fill_step by lia.
    + rewrite length_app, length_replicate, length_drop. lia.
  - done.
Qed.

(** ** assign *)

(** [assign] with a value held outside the container, a count below the
    range of its 32-bit counter and a buffer that [new] grants: exactly
    [count] copies of [value], in the buffer kept or in one of [count]
    slots. *)
Lemma assign_value v (count : nat) (value : T) :
  wf v →
  ∃ v', assign count value v = (Ok tt, v') ∧
    live v' = replicate count value ∧ size v' = count ∧
    (count ≤ size v →
       capacity v' = capacity v ∧
       m_storage v' = replicate count value ++ drop count (m_storage v)) ∧
    (size v < count →
       capacity v' = count ∧ m_storage v' = replicate count value).
Proof.
  intros [Hle Hlen]. unfold assign, bind, get_end, size, capacity. simpl.
  case_decide as Hc.
  - rewrite fill_loop by (simpl; lia). simpl.
    eexists. split; [reflexivity|]. unfold live. simpl.
    repeat split; try lia.
    rewrite take_app_length' by (by rewrite length_replicate). done.
  - rewrite fill_loop by (simpl; unfold new_array; by rewrite length_replicate).
    simpl. eexists. split; [reflexivity|]. unfold live, new_array. simpl.
    rewrite drop_replicate, Nat.sub_diag. simpl. rewrite app_nil_r.
    repeat split; try lia.
    rewrite take_ge by (by rewrite length_replicate). done.
Qed.

(** ** Equality of containers *)

Lemma at_live v (n : nat) :
  wf v → n < size v → ∃ x, live v !! n = Some x ∧ at_ n v = Ok x.
Proof.
  intros Hwf Hn. unfold size in Hn.
  destruct (wf_slot v n Hwf Hn) as [x Hx]. exists x.
  rewrite wf_live_lookup by done. split; [done|].
  unfold at_, size. case_decide; [|lia]. by apply deref_nat.
Qed.

Lemma live_eq_pointwise (a b : vector T) :
  wf a → wf b →
  live a = live b ↔
  size a = size b ∧ ∀ n : nat, n < size a → m_storage a !! n = m_storage b !! n.
Proof.
  intros Ha Hb. unfold size. split.
  - intros E. assert (m_end a = m_end b) as Hs.
    { by rewrite <- (wf_live_length a), <- (wf_live_length b), E. }
    split; [done|]. intros n Hn.
    rewrite <- (wf_live_lookup a), <- (wf_live_lookup b) by lia. by rewrite E.
  - intros [Hs Hl]. apply list_eq. intros n.
    destruct (decide (n < m_end a)) as [Hn|Hn].
    + rewrite !wf_live_lookup by lia. by apply Hl.
    + unfold live. rewrite !lookup_take_ge by lia. done.
Qed.

(** The loop of [operator==] from index [i] decides whether the live
    elements from [i] on agree. *)
Lemma eq_loop_spec (a b : vector T) (n i : nat) :
  wf a → wf b → size a = size b → i + n = size b →
  eq_loop n i a b = Ok (bool_decide (drop i (live a) = drop i (live b))).
Proof.
  intros Ha Hb Hs. revert i. induction n as [|n IH]; intros i Hi; simpl.
  - rewrite !drop_ge by (rewrite wf_live_length by done; unfold size in *; lia).
    by rewrite bool_decide_eq_true_2.
  - destruct (at_live a i Ha) as (x & Lx & ->); [lia|].
    destruct (at_live b i Hb) as (y & Ly & ->); [lia|]. simpl.
    rewrite (drop_S _ _ _ Lx), (drop_S _ _ _ Ly).
    case_decide as Hxy.
    + rewrite bool_decide_eq_false_2; [done|]. intros [= ? _]. done.
    + assert (x = y) as -> by (destruct (decide (x = y)); [done | by elim Hxy]).
      rewrite IH by lia. f_equal. apply bool_decide_ext.
      split; [by intros -> | by intros [= ->]].
Qed.

(** C7: [a == b] holds exactly when the two containers have the same size
    and their live elements agree index by index; the capacity takes no
    part, and [a != b] is the negation of [a == b]. *)
Theorem container_equality (a b : vector T) :
  wf a → wf b →
  vec_eq a b = Ok (bool_decide (live a = live b)) ∧
  vec_ne a b = Ok (negb (bool_decide (live a = live b))) ∧
  (live a = live b ↔
   size a = size b ∧
   ∀ n : nat, n < size a → m_storage a !! n = m_storage b !! n).
Proof.
  intros Ha Hb.
  assert (vec_eq a b = Ok (bool_decide (live a = live b))) as E.
  { unfold vec_eq. case_decide as Hs.
    - rewrite eq_loop_spec by (done || lia). by rewrite !drop_0.
    - rewrite bool_decide_eq_false_2; [done|]. intros El. apply Hs.
      by apply live_eq_pointwise in El as [? _]. }
  split; [done|]. split.
  - unfold vec_ne. rewrite E. simpl. by destruct (bool_decide _).
  - by apply live_eq_pointwise.
Qed.

(** ** Capacity along a call *)

Create HintDb cap discriminated.

Lemma cap_kept_ret {A} (a : A) : cap_kept (ret (T:=T) a).
Proof. done. Qed.
Lemma cap_kept_throw {A} e : cap_kept (throw (T:=T) (A:=A) e).
Proof. done. Qed.
Lemma cap_kept_fault {A} i : cap_kept (fault (T:=T) (A:=A) i).
Proof. done. Qed.
Lemma cap_kept_get_end : cap_kept (get_end (T:=T)).
Proof. done. Qed.
Lemma cap_kept_get_capacity : cap_kept (get_capacity (T:=T)).
Proof. done. Qed.
Lemma cap_kept_set_end n : cap_kept (set_end (T:=T) n).
Proof. done. Qed.
Lemma cap_kept_set_storage buf : cap_kept (set_storage buf).
Proof. done. Qed.
Lemma cap_kept_load i : cap_kept (load (T:=T) i).
Proof. done. Qed.
Lemma cap_kept_load_from (vec : vector T) i : cap_kept (load_from (T:=T) vec i).
Proof. done. Qed.
Lemma cap_kept_store i x : cap_kept (store i x).
Proof. intros v. unfold state_after, store. by case_decide. Qed.
Lemma cap_kept_store_to buf i x : cap_kept (store_to buf i x).
Proof. intros v. unfold state_after, store_to. by case_decide. Qed.
Lemma cap_kept_begin : cap_kept (begin_ (T:=T)).
Proof. done. Qed.

Lemma cap_kept_bind {A B} (m : M T A) (k : A → M T B) :
  cap_kept m → (∀ a, cap_kept (k a)) → cap_kept (bind m k).
Proof.
  intros Hm Hk v. specialize (Hm v). unfold state_after, bind in *.
  destruct (m v) as [[a|e|i] v1]; simpl in *; try done.
  specialize (Hk a v1). unfold state_after in Hk. congruence.
Qed.

Lemma cap_grows_bind {A B} (m : M T A) (k : A → M T B) :
  cap_grows m → (∀ a, cap_grows (k a)) → cap_grows (bind m k).
Proof.
  intros Hm Hk v. specialize (Hm v). unfold state_after, bind in *.
  destruct (m v) as [[a|e|i] v1]; simpl in *; try done.
  specialize (Hk a v1). unfold state_after in Hk. lia.
Qed.

Lemma cap_kept_grows {A} (m : M T A) : cap_kept m → cap_grows m.
Proof. intros Hm v. by rewrite (Hm v). Qed.

Lemma cap_kept_iter_up {St} n i (body : Z → St → M T St) s :
  (∀ i s, cap_kept (body i s)) → cap_kept (iter_up n i body s).
Proof.
  intros Hb. induction n as [|n IH] in i, s |- *; simpl.
  - done.
  - apply cap_kept_bind; [done|]. intros s'. apply IH.
Qed.

Lemma cap_kept_iter_down {St} n i (body : Z → St → M T St) s :
  (∀ i s, cap_kept (body i s)) → cap_kept (iter_down n i body s).
Proof.
  intros Hb. induction n as [|n IH] in i, s |- *; simpl.
  - done.
  - apply cap_kept_bind; [done|]. intros s'. apply IH.
Qed.

Lemma cap_kept_copy_in xs i : cap_kept (copy_in xs i).
Proof.
  induction xs as [|x xs IH] in i |- *; simpl.
  - done.
  - apply cap_kept_bind; [apply cap_kept_store|]. intros _. apply IH.
Qed.

#[local] Hint Resolve cap_kept_ret cap_kept_throw cap_kept_fault
  cap_kept_get_end cap_kept_get_capacity cap_kept_set_end
  cap_kept_set_storage cap_kept_load cap_kept_load_from cap_kept_store
  cap_kept_store_to cap_kept_begin cap_kept_copy_in : cap.

(** Closes [cap_kept] and [cap_grows] goals on straight-line code, loops
    and branches whose parts are covered by the [cap] hints. *)
Ltac cap_step :=
  first
    [ progress intros
    | solve [eauto with cap]
    | apply cap_kept_bind
    | apply cap_kept_iter_up
    | apply cap_kept_iter_down
    | apply cap_grows_bind
    | case_decide
    | match goal with |- context [if ?b then _ else _] => destruct b end
    | apply cap_kept_grows ].
Ltac cap_auto := repeat cap_step.

Lemma cap_kept_loops {St} lo hi (body : Z → St → M T St) s :
  (∀ i s, cap_kept (body i s)) →
  cap_kept (for_lt lo hi body s) ∧ cap_kept (for_gt hi lo body s) ∧
  cap_kept (for_ge hi lo body s).
Proof.
  intros Hb. unfold for_lt, for_gt, for_ge.
  split; [|split]; cap_auto.
Qed.

Lemma cap_kept_for_lt {St} lo hi (body : Z → St → M T St) s :
  (∀ i s, cap_kept (body i s)) → cap_kept (for_lt lo hi body s).
Proof. intros Hb. by apply cap_kept_loops. Qed.
Lemma cap_kept_for_gt {St} lo hi (body : Z → St → M T St) s :
  (∀ i s, cap_kept (body i s)) → cap_kept (for_gt hi lo body s).
Proof. intros Hb. by apply cap_kept_loops. Qed.
Lemma cap_kept_for_ge {St} lo hi (body : Z → St → M T St) s :
  (∀ i s, cap_kept (body i s)) → cap_kept (for_ge hi lo body s).
Proof. intros Hb. by apply cap_kept_loops. Qed.

Ltac cap_loops :=
  repeat first
    [ progress intros
    | solve [eauto with cap]
    | apply cap_kept_for_lt | apply cap_kept_for_gt | apply cap_kept_for_ge
    | cap_step ].

Lemma cap_kept_end : cap_kept (end_ (T:=T)).
Proof. unfold end_. cap_auto. Qed.
Lemma cap_kept_full : cap_kept (full (T:=T)).
Proof. unfold full. cap_auto. Qed.
Lemma cap_kept_destroy i : cap_kept (destroy (T:=T) i).
Proof. unfold destroy. cap_auto. Qed.
#[local] Hint Resolve cap_kept_end cap_kept_full cap_kept_destroy : cap.

(** [reserve] never lowers the capacity, whatever its result. *)
Lemma cap_grows_reserve alocar : cap_grows (reserve (T:=T) alocar).
Proof.
  intros v. unfold state_after, reserve, bind, get_capacity, get_end. simpl.
  case_decide as Hc; [done|].
  pose proof (cap_kept_for_lt 0 (Z.of_nat (m_end v))
    (λ i buf, let* x := load i in store_to buf i x) (new_array alocar)) as Hl.
  specialize (Hl ltac:(cap_auto) v). unfold state_after in Hl.
  destruct (for_lt _ _ _ _ v) as [[buf|e|i] v1]; simpl in *; lia.
Qed.
#[local] Hint Resolve cap_grows_reserve : cap.

Lemma cap_grows_copy_assign vec : cap_grows (copy_assign (T:=T) vec).
Proof.
  intros v. unfold state_after, copy_assign, bind, get_capacity. simpl.
  case_decide as Hc.
  - pose proof (cap_kept_for_lt 0 (Z.of_nat (m_end vec))
      (λ ii (_ : unit), let* x := load_from vec ii in store ii x) tt) as Hl.
    specialize (Hl ltac:(cap_auto) v). unfold state_after in Hl.
    destruct (for_lt _ _ _ _ v) as [[[]|e|i] v1]; simpl in *; lia.
  - pose proof (cap_kept_for_lt 0 (Z.of_nat (m_end vec))
      (λ i buf, let* x := load_from vec i in store_to buf i x)
      (new_array (m_end vec))) as Hl.
    specialize (Hl ltac:(cap_auto) v). unfold state_after in Hl.
    destruct (for_lt _ _ _ _ v) as [[buf|e|i] v1]; simpl in *; lia.
Qed.

Lemma cap_kept_fill (n : nat) x :
  cap_kept (for_lt 0 (Z.of_nat n) (λ i (_ : unit), store i x) tt).
Proof. cap_loops. Qed.

Lemma capacity_assign v (count : nat) x :
  m_capacity (state_after (assign count x) v) =
    if decide (count ≤ m_end v) then m_capacity v else count.
Proof.
  unfold state_after, assign, bind, get_end. simpl.
  case_decide; (etrans; [apply (cap_kept_fill count x) | done]).
Qed.

Lemma capacity_assign_list v xs :
  m_capacity (state_after (assign_list xs) v) =
    if decide (length xs ≤ m_end v) then m_capacity v else length xs.
Proof.
  unfold state_after, assign_list, bind, get_end. simpl.
  case_decide; (etrans; [apply (cap_kept_copy_in xs 0) | done]).
Qed.

Lemma capacity_assign_range v xs :
  m_capacity (state_after (assign_range xs) v) =
    if decide (length xs ≤ m_end v) then m_capacity v else length xs.
Proof.
  unfold state_after, assign_range, bind, get_end. simpl.
  case_decide; (etrans; [apply (cap_kept_copy_in xs 0) | done]).
Qed.

Lemma cap_grows_clear : cap_grows (clear (T:=T)).
Proof. unfold clear. cap_loops. Qed.
Lemma cap_grows_push_front x : cap_grows (push_front x).
Proof. unfold push_front. cap_loops. Qed.
Lemma cap_grows_push_back x : cap_grows (push_back x).
Proof. unfold push_back. cap_loops. Qed.
Lemma cap_grows_pop_back : cap_grows (pop_back (T:=T)).
Proof. unfold pop_back. cap_loops. Qed.
Lemma cap_grows_pop_front : cap_grows (pop_front (T:=T)).
Proof. unfold pop_front. cap_loops. Qed.
Lemma cap_grows_insert i x : cap_grows (insert i x).
Proof. unfold insert. cap_loops. Qed.
Lemma cap_grows_insert_range i xs : cap_grows (insert_range i xs).
Proof. unfold insert_range. cap_loops. Qed.
Lemma cap_grows_insert_list i xs : cap_grows (insert_list i xs).
Proof. unfold insert_list. cap_loops. Qed.
Lemma cap_grows_erase_range i j : cap_grows (erase_range (T:=T) i j).
Proof. unfold erase_range. cap_loops. Qed.
Lemma cap_grows_erase i : cap_grows (erase (T:=T) i).
Proof. unfold erase. cap_loops. Qed.

(** C9, as the code has it: the capacity after a call is at least the
    capacity before it for every operation on a container, whatever the
    result of the call, except [shrink_to_fit] and an [assign] whose count
    lies above the size and below the capacity, which moves the container
    to a buffer of exactly that count.  Copy-assignment is among the
    operations that never lower it. *)
Theorem capacity_monotone (op : operation T) v :
  may_shrink op v = false →
  capacity v ≤ capacity (run_op op v).
Proof.
  unfold capacity. destruct op; simpl; intros Hs; try done.
  - apply cap_grows_reserve.
  - apply cap_grows_copy_assign.
  - apply cap_grows_clear.
  - apply cap_grows_push_front.
  - apply cap_grows_push_back.
  - apply cap_grows_pop_back.
  - apply cap_grows_pop_front.
  - apply cap_grows_insert.
  - apply cap_grows_insert_range.
  - apply cap_grows_insert_list.
  - rewrite capacity_assign. apply bool_decide_eq_false in Hs.
    case_decide; lia.
  - rewrite capacity_assign_list. apply bool_decide_eq_false in Hs.
    case_decide; lia.
  - rewrite capacity_assign_range. apply bool_decide_eq_false in Hs.
    case_decide; lia.
  - apply cap_grows_erase_range.
  - apply cap_grows_erase.
Qed.

(** ** Reallocation *)

Lemma copy_step (k : nat) x (src dst : list T) :
  src !! k = Some x → k < length dst →
  <[k:=x]> (take k src ++ drop k dst) = take (S k) src ++ drop (S k) dst.
Proof.
  revert src dst.
  induction k as [|k IH]; intros [|y src] [|z dst] Hx Hk; simpl in *;
    try done; try lia.
  - by injection Hx as ->.
  - f_equal. apply IH; [done | lia].
Qed.

(** [for (i = 0; i < m_end; i++) newstorage[i] = m_storage[i];] *)
Lemma copy_out_loop v (e : nat) (dst : list T) :
  e ≤ length (m_storage v) → e ≤ length dst →
  for_lt 0 (Z.of_nat e) (λ i buf, let* x := load i in store_to buf i x) dst v
  = (Ok (take e (m_storage v) ++ drop e dst), v).
Proof.
  intros Hs Hd. unfold for_lt. rewrite Z.sub_0_r, Nat2Z.id.
  destruct (iter_up_inv
    (λ k buf v', v' = v ∧ buf = take k (m_storage v) ++ drop k dst)
    e 0 (λ i buf, let* x := load i in store_to buf i x) dst v)
    as (buf & v' & E & -> & ->).
  - by rewrite drop_0.
  - intros k buf ? Hk [-> ->].
    destruct (lookup_lt_is_Some_2 (m_storage v) k) as [x Hx]; [lia|].
    exists (take (S k) (m_storage v) ++ drop (S k) dst), v.
    split; [|done]. rewrite Z.add_0_l. unfold bind.
    rewrite (load_in_bounds _ _ _ Hx). unfold store_to.
    rewrite Nat2Z.id. case_decide as Hb.
    + unfold ret. by rewrite copy_step by (done || lia).
    + rewrite length_app, length_take, length_drop in Hb. lia.
  - done.
Qed.

(** [reserve(alocar)] above the capacity moves the live elements to a
    buffer of [alocar] slots. *)
Lemma reserve_grow v (alocar : nat) :
  wf v → m_capacity v < alocar →
  reserve alocar v =
    (Ok tt, mk_vector (m_end v) alocar
              (live v ++ replicate (alocar - m_end v) T0)).
Proof.
  intros [Hle Hlen] Hc. unfold reserve, bind, get_capacity, get_end. simpl.
  case_decide; [lia|].
  rewrite copy_out_loop by (unfold new_array; rewrite ?length_replicate; lia).
  simpl. unfold new_array. by rewrite drop_replicate.
Qed.

Lemma reserve_keep v (alocar : nat) :
  alocar ≤ m_capacity v → reserve alocar v = (Ok tt, v).
Proof.
  intros Hc. unfold reserve, bind, get_capacity. simpl.
  case_decide; [done | lia].
Qed.

(** What every caller of [reserve] relies on. *)
Lemma reserve_spec v (alocar : nat) :
  wf v →
  ∃ v', reserve alocar v = (Ok tt, v') ∧ wf v' ∧
    m_end v' = m_end v ∧ live v' = live v ∧
    m_capacity v' = Nat.max alocar (m_capacity v).
Proof.
  intros Hwf. destruct (decide (alocar ≤ m_capacity v)) as [Hc|Hc].
  - exists v. rewrite reserve_keep by done. repeat split; try apply Hwf. lia.
  - rewrite reserve_grow by (done || lia). eexists. split; [reflexivity|].
    destruct Hwf as [Hle Hlen]. unfold wf, live. simpl.
    rewrite length_app, length_take, length_replicate.
    repeat split; try lia.
    by rewrite take_app_length' by (rewrite length_take; lia).
Qed.

(** ** Shifts *)

(** [for (it = p; it < q; it++) *it = *(it + d);], the loop that closes a
    gap of [d] slots: slots [p, q) receive the contents [d] slots to
    their right. *)
Lemma shift_left_loop v (p q d : nat) :
  q + d ≤ length (m_storage v) →
  ∃ s', for_lt (Z.of_nat p) (Z.of_nat q)
          (λ it (_ : unit), let* x := load (it + Z.of_nat d) in store it x)
          tt v
        = (Ok tt, mk_vector (m_end v) (m_capacity v) s') ∧
    length s' = length (m_storage v) ∧
    ∀ j : nat, s' !! j =
      if decide (p ≤ j < q) then m_storage v !! (j + d) else m_storage v !! j.
Proof.
  intros Hb. unfold for_lt.
  destruct (iter_up_inv
    (λ k (_ : unit) v',
       m_end v' = m_end v ∧ m_capacity v' = m_capacity v ∧
       length (m_storage v') = length (m_storage v) ∧
       ∀ j : nat, m_storage v' !! j =
         if decide (p ≤ j < p + k) then m_storage v !! (j + d)
         else m_storage v !! j)
    (Z.to_nat (Z.of_nat q - Z.of_nat p)) (Z.of_nat p)
    (λ it (_ : unit), let* x := load (it + Z.of_nat d) in store it x) tt v)
    as ([] & [e' c' s'] & E & He & Hc & Hl & Hj); simpl in *.
  - repeat split; try done. intros j. case_decide; [lia | done].
  - intros k [] v' Hk (He & Hc & Hl & Hj).
    destruct (lookup_lt_is_Some_2 (m_storage v) (p + k + d)) as [x Hx]; [lia|].
    assert (m_storage v' !! (p + k + d) = Some x) as Hx'.
    { rewrite Hj. case_decide; [lia | done]. }
    eexists tt, _. unfold bind.
    replace (Z.of_nat p + Z.of_nat k + Z.of_nat d)%Z
      with (Z.of_nat (p + k + d)) by lia.
    rewrite (load_in_bounds _ _ _ Hx').
    replace (Z.of_nat p + Z.of_nat k)%Z with (Z.of_nat (p + k)) by lia.
    rewrite store_in_bounds by lia. split; [reflexivity|]. simpl.
    rewrite length_insert. repeat split; try done.
    intros j. rewrite list_lookup_insert, Hj.
    repeat case_decide; try lia; try done.
    replace (j + d) with (p + k + d) by lia. done.
  - exists s'. rewrite E, He, Hc. repeat split; try done.
    intros j. rewrite Hj. repeat case_decide; try lia; done.
Qed.

(** [for (it = hi; it > lo; it--) *it = *(it - 1);], the loop that opens a
    gap of one slot: slots (lo, hi] receive the contents one slot to their
    left. *)
Lemma shift_right_loop v (hi lo : nat) :
  hi < length (m_storage v) →
  ∃ s', for_gt (Z.of_nat hi) (Z.of_nat lo)
          (λ it (_ : unit), let* x := load (it - 1) in store it x) tt v
        = (Ok tt, mk_vector (m_end v) (m_capacity v) s') ∧
    length s' = length (m_storage v) ∧
    ∀ j : nat, s' !! j =
      if decide (lo < j ≤ hi) then m_storage v !! (j - 1) else m_storage v !! j.
Proof.
  intros Hb. unfold for_gt.
  destruct (iter_down_inv
    (λ k (_ : unit) v',
       m_end v' = m_end v ∧ m_capacity v' = m_capacity v ∧
       length (m_storage v') = length (m_storage v) ∧
       ∀ j : nat, m_storage v' !! j =
         if decide (hi - k < j ≤ hi) then m_storage v !! (j - 1)
         else m_storage v !! j)
    (Z.to_nat (Z.of_nat hi - Z.of_nat lo)) (Z.of_nat hi)
    (λ it (_ : unit), let* x := load (it - 1) in store it x) tt v)
    as ([] & [e' c' s'] & E & He & Hc & Hl & Hj); simpl in *.
  - repeat split; try done. intros j. case_decide; [lia | done].
  - intros k [] v' Hk (He & Hc & Hl & Hj).
    destruct (lookup_lt_is_Some_2 (m_storage v) (hi - k - 1)) as [x Hx]; [lia|].
    assert (m_storage v' !! (hi - k - 1) = Some x) as Hx'.
    { rewrite Hj. case_decide; [lia | done]. }
    eexists tt, _. unfold bind.
    replace (Z.of_nat hi - Z.of_nat k - 1)%Z
      with (Z.of_nat (hi - k - 1)) by lia.
    rewrite (load_in_bounds _ _ _ Hx').
    replace (Z.of_nat hi - Z.of_nat k)%Z with (Z.of_nat (hi - k)) by lia.
    rewrite store_in_bounds by lia. split; [reflexivity|]. simpl.
    rewrite length_insert. repeat split; try done.
    intros j. rewrite list_lookup_insert, Hj.
    repeat case_decide; try lia; try done.
    replace (j - 1) with (hi - k - 1) by lia. done.
  - exists s'. rewrite E, He, Hc. repeat split; try done.
    intros j. rewrite Hj. repeat case_decide; try lia; done.
Qed.

(** The two loops with the bounds the callers write. *)
Lemma shift_left v (p q d : Z) :
  (0 ≤ p)%Z → (0 ≤ d)%Z → (q + d ≤ Z.of_nat (length (m_storage v)))%Z →
  ∃ s', for_lt p q (λ it (_ : unit), let* x := load (it + d) in store it x) tt v
        = (Ok tt, mk_vector (m_end v) (m_capacity v) s') ∧
    length s' = length (m_storage v) ∧
    ∀ j : nat, s' !! j =
      if decide (p ≤ Z.of_nat j < q)%Z
      then m_storage v !! (j + Z.to_nat d) else m_storage v !! j.
Proof.
  intros Hp Hd Hb. destruct (decide (p < q)%Z) as [Hpq|Hpq].
  - destruct (shift_left_loop v (Z.to_nat p) (Z.to_nat q) (Z.to_nat d))
      as (s' & E & Hl & Hj); [lia|].
    rewrite !Z2Nat.id in E by lia. exists s'. repeat split; try done.
    intros j. rewrite Hj. repeat case_decide; try lia; done.
  - exists (m_storage v). unfold for_lt.
    replace (Z.to_nat (q - p)) with 0 by lia. simpl. unfold ret.
    split; [by destruct v|]. split; [done|].
    intros j. case_decide; [lia | done].
Qed.

Lemma shift_right v (hi lo : Z) :
  (0 ≤ lo)%Z → (hi < Z.of_nat (length (m_storage v)))%Z →
  ∃ s', for_gt hi lo (λ it (_ : unit), let* x := load (it - 1) in store it x) tt v
        = (Ok tt, mk_vector (m_end v) (m_capacity v) s') ∧
    length s' = length (m_storage v) ∧
    ∀ j : nat, s' !! j =
      if decide (lo < Z.of_nat j ≤ hi)%Z
      then m_storage v !! (j - 1) else m_storage v !! j.
Proof.
  intros Hlo Hb. destruct (decide (lo < hi)%Z) as [Hlh|Hlh].
  - destruct (shift_right_loop v (Z.to_nat hi) (Z.to_nat lo))
      as (s' & E & Hl & Hj); [lia|].
    rewrite !Z2Nat.id in E by lia. exists s'. repeat split; try done.
    intros j. rewrite Hj. repeat case_decide; try lia; done.
  - exists (m_storage v). unfold for_gt.
    replace (Z.to_nat (hi - lo)) with 0 by lia. simpl. unfold ret.
    split; [by destruct v|]. split; [done|].
    intros j. case_decide; [lia | done].
Qed.

(** A list that agrees slot by slot with [l] opened at [p] for [x]. *)
Lemma opened_at (l l' : list T) (p : nat) x :
  p ≤ length l → length l' = S (length l) →
  (∀ j : nat, j ≤ length l →
     l' !! j = if decide (j = p) then Some x
               else if decide (p < j) then l !! (j - 1) else l !! j) →
  l' = take p l ++ x :: drop p l.
Proof.
  intros Hp Hl Hj. apply list_eq. intros j.
  destruct (decide (j ≤ length l)) as [Hjl|Hjl].
  - rewrite Hj by done. repeat case_decide; subst.
    + rewrite lookup_app_r by (rewrite length_take; lia).
      rewrite length_take. by replace (p - p `min` length l) with 0 by lia.
    + rewrite lookup_app_r by (rewrite length_take; lia).
      rewrite length_take.
      replace (j - p `min` length l) with (S (j - p - 1)) by lia.
      simpl. rewrite lookup_drop. f_equal. lia.
    + rewrite lookup_app_l by (rewrite length_take; lia).
      by rewrite lookup_take_lt by lia.
  - rewrite !lookup_ge_None_2; [done| |lia].
    rewrite length_app, length_take. simpl. rewrite length_drop. lia.
Qed.

(** A list that agrees slot by slot with [l] closed over [d] slots
    from [p]. *)
Lemma closed_at (l l' : list T) (p d : nat) :
  p + d ≤ length l → length l' = length l - d →
  (∀ j : nat, j < length l - d →
     l' !! j = if decide (p ≤ j) then l !! (j + d) else l !! j) →
  l' = take p l ++ drop (p + d) l.
Proof.
  intros Hp Hl Hj. apply list_eq. intros j.
  destruct (decide (j < length l - d)) as [Hjl|Hjl].
  - rewrite Hj by done. case_decide.
    + rewrite lookup_app_r by (rewrite length_take; lia).
      rewrite length_take, lookup_drop. f_equal. lia.
    + rewrite lookup_app_l by (rewrite length_take; lia).
      by rewrite lookup_take_lt by lia.
  - rewrite !lookup_ge_None_2; [done| |lia].
    rewrite length_app, length_take, length_drop. lia.
Qed.

(** Running one step of a member function. *)
Lemma bind_Ok {A B} (m : M T A) (k : A → M T B) v a v1 r :
  m v = (Ok a, v1) → k a v1 = r → bind m k v = r.
Proof. intros E <-. unfold bind. by rewrite E. Qed.

Ltac mstep := eapply bind_Ok; [reflexivity | cbv beta].
Ltac mstep_by E := eapply bind_Ok; [exact E | cbv beta].

(** ** insert and erase of one element *)

(** The growth step of [insert]: [if (full()) reserve(m_capacity * 2);] on
    a container whose capacity is not 0. *)
Lemma insert_grow v :
  wf v → m_capacity v ≠ 0 →
  ∃ v1,
    (if bool_decide (m_capacity v = m_end v)
     then let* cap := get_capacity in reserve (cap * 2)
     else ret tt) v = (Ok tt, v1) ∧
    wf v1 ∧ m_end v1 = m_end v ∧ live v1 = live v ∧
    m_end v1 < m_capacity v1 ∧
    m_capacity v1 =
      if decide (m_capacity v = m_end v) then 2 * m_capacity v
      else m_capacity v.
Proof.
  intros Hwf Hc. case_decide as Hf.
  - rewrite bool_decide_eq_true_2 by done.
    destruct (reserve_spec v (m_capacity v * 2) Hwf)
      as (v1 & E & Hwf1 & He & Hl & Hc1).
    exists v1. split; [by mstep|]. repeat split; try apply Hwf1; try done; lia.
  - rewrite bool_decide_eq_false_2 by done.
    exists v. destruct Hwf as [Hle Hlen]. repeat split; try done. lia.
Qed.

(** [insert(pos, x)] on a container whose capacity is not 0, with [pos] in
    [begin(), end()]: [x] is placed at [pos], the elements from [pos] on
    move one slot to the right, and the iterator returned is [pos]
    again, now into the buffer in use. *)
Lemma insert_spec v (pos : iterator) x :
  wf v → m_capacity v ≠ 0 → (0 ≤ pos ≤ Z.of_nat (m_end v))%Z →
  ∃ v', insert pos x v = (Ok pos, v') ∧ wf v' ∧
    m_end v' = S (m_end v) ∧
    live v' = take (Z.to_nat pos) (live v) ++ x :: drop (Z.to_nat pos) (live v) ∧
    m_capacity v' =
      if decide (m_capacity v = m_end v) then 2 * m_capacity v
      else m_capacity v.
Proof.
  intros Hwf Hc Hpos.
  destruct (insert_grow v Hwf Hc) as (v1 & E1 & [Hle1 Hlen1] & He1 & Hl1 & Hlt1 & Hc1).
  set (v2 := mk_vector (m_end v1 + 1) (m_capacity v1) (m_storage v1)).
  destruct (shift_right v2 (Z.of_nat (m_end v1 + 1) - 1) (0 + (pos - 0)))
    as (s3 & E3 & Hlen3 & Hj3); simpl; [lia | lia |].
  simpl in *.
  set (v3 := mk_vector (m_end v1 + 1) (m_capacity v1) s3) in *.
  assert (store (0 + (pos - 0)) x v3 =
          (Ok tt, mk_vector (m_end v1 + 1) (m_capacity v1)
                    (<[Z.to_nat pos := x]> s3))) as E4.
  { unfold store. simpl. rewrite decide_True by lia.
    by replace (0 + (pos - 0))%Z with pos by lia. }
  eexists. split; [|split; [|split; [|split]]].
  - unfold insert. mstep. mstep. rewrite decide_False by lia.
    mstep. mstep_by E1. mstep. mstep. mstep. mstep.
    mstep_by E3. mstep_by E4. unfold ret. f_equal. f_equal. lia.
  - unfold wf. simpl. rewrite length_insert. lia.
  - simpl. lia.
  - apply opened_at.
    + rewrite wf_live_length by done. lia.
    + unfold live at 1. simpl. rewrite length_take, length_insert.
      rewrite wf_live_length by done. lia.
    + rewrite wf_live_length by done. intros j Hj.
      unfold live at 1. simpl. rewrite lookup_take_lt by lia.
      rewrite list_lookup_insert, Hj3.
      assert (∀ n : nat, n < m_end v → m_storage v1 !! n = live v !! n) as Hv1.
      { intros n Hn. rewrite <- Hl1. symmetry. apply wf_live_lookup. lia. }
      repeat case_decide; try lia; try done; by rewrite Hv1 by lia.
  - simpl. done.
Qed.

(** [erase(pos)] with [pos] in [begin(), end()): the element at [pos] is
    dropped, the elements after it move one slot to the left, and the
    iterator returned is [pos]. *)
Lemma erase_spec v (pos : iterator) :
  wf v → (0 ≤ pos < Z.of_nat (m_end v))%Z →
  ∃ v', erase pos v = (Ok pos, v') ∧ wf v' ∧
    m_end v' = m_end v - 1 ∧
    live v' = take (Z.to_nat pos) (live v) ++ drop (S (Z.to_nat pos)) (live v) ∧
    m_capacity v' = m_capacity v.
Proof.
  intros [Hle Hlen] Hpos.
  destruct (shift_left v pos (Z.of_nat (m_end v) - 1) 1)
    as (s1 & E1 & Hlen1 & Hj1); [lia | lia | lia |].
  eexists. split; [|split; [|split; [|split]]].
  - unfold erase. mstep. mstep. rewrite decide_True by lia.
    mstep_by E1. mstep. mstep. reflexivity.
  - unfold wf. simpl. lia.
  - done.
  - replace (S (Z.to_nat pos)) with (Z.to_nat pos + 1) by lia.
    assert (length (live v) = m_end v) as Hll by (by apply wf_live_length).
    apply closed_at.
    + lia.
    + unfold live at 1. simpl. rewrite length_take. lia.
    + rewrite Hll. intros j Hj. unfold live at 1. simpl.
      rewrite lookup_take_lt by lia. rewrite Hj1.
      rewrite !wf_live_lookup by lia.
      repeat case_decide; try lia; done.
  - done.
Qed.

(** Where [insert] succeeds, [erase] at the iterator it returns undoes it:
    the live elements and the size are those before the [insert]. *)
Lemma insert_then_erase v (pos : iterator) x :
  wf v → m_capacity v ≠ 0 → (0 ≤ pos ≤ Z.of_nat (m_end v))%Z →
  ∃ v1 it v2,
    insert pos x v = (Ok it, v1) ∧ erase it v1 = (Ok it, v2) ∧
    live v2 = live v ∧ size v2 = size v.
Proof.
  intros Hwf Hc Hpos.
  destruct (insert_spec v pos x Hwf Hc Hpos)
    as (v1 & E1 & Hwf1 & He1 & Hl1 & _).
  destruct (erase_spec v1 pos Hwf1) as (v2 & E2 & Hwf2 & He2 & Hl2 & _); [lia|].
  exists v1, pos, v2. repeat split; try done.
  - rewrite Hl2, Hl1.
    assert (length (take (Z.to_nat pos) (live v)) = Z.to_nat pos) as Hlt.
    { rewrite length_take, wf_live_length by done. lia. }
    rewrite take_app_length' by done.
    rewrite drop_app_ge by lia. rewrite Hlt.
    replace (S (Z.to_nat pos) - Z.to_nat pos) with 1 by lia. simpl.
    by rewrite drop_0, take_drop.
  - unfold size. lia.
Qed.

(** ** Growth on push *)

(** The growth step of [push_back]. *)
Lemma push_back_grow v :
  wf v →
  ∃ v1,
    (if decide (m_capacity v = 0) then reserve 10
     else if decide (m_end v = m_capacity v) then reserve (2 * m_capacity v)
          else ret tt) v = (Ok tt, v1) ∧
    wf v1 ∧ m_end v1 = m_end v ∧ live v1 = live v ∧
    m_end v1 < m_capacity v1 ∧
    m_capacity v1 =
      if decide (m_capacity v = 0) then 10
      else if decide (m_end v = m_capacity v) then 2 * m_capacity v
           else m_capacity v.
Proof.
  intros Hwf. pose proof Hwf as [Hle Hlen].
  destruct (decide (m_capacity v = 0)) as [H0|H0];
    [|destruct (decide (m_end v = m_capacity v)) as [Hf|Hf]].
  - destruct (reserve_spec v 10 Hwf) as (v1 & E & Hwf1 & He & Hl & Hc1).
    exists v1. repeat split; try apply Hwf1; try done; lia.
  - destruct (reserve_spec v (2 * m_capacity v) Hwf)
      as (v1 & E & Hwf1 & He & Hl & Hc1).
    exists v1. repeat split; try apply Hwf1; try done; lia.
  - exists v. repeat split; try done. lia.
Qed.

(** [push_back(x)] appends [x]; the capacity goes from 0 to 10, from a
    full [c > 0] to [2c], and stays otherwise. *)
Lemma push_back_spec v x :
  wf v →
  ∃ v', push_back x v = (Ok tt, v') ∧ wf v' ∧
    live v' = live v ++ [x] ∧ m_end v' = S (m_end v) ∧
    m_capacity v' =
      if decide (m_capacity v = 0) then 10
      else if decide (m_end v = m_capacity v) then 2 * m_capacity v
           else m_capacity v.
Proof.
  intros Hwf.
  destruct (push_back_grow v Hwf)
    as (v1 & E1 & [Hle1 Hlen1] & He1 & Hl1 & Hlt1 & Hc1).
  eexists. split; [|split; [|split; [|split]]].
  - unfold push_back. mstep. mstep. mstep_by E1. mstep.
    eapply bind_Ok; [apply store_in_bounds; lia|]. reflexivity.
  - unfold wf. simpl. rewrite length_insert. lia.
  - unfold live at 1. simpl. rewrite <- Hl1. unfold live.
    replace (m_end v1 + 1) with (S (m_end v1)) by lia.
    rewrite (take_S_r _ _ x) by (apply list_lookup_insert_eq; lia).
    by rewrite take_insert_ge by lia.
  - simpl. lia.
  - done.
Qed.

(** The growth step of [push_front]. *)
Lemma push_front_grow v :
  wf v →
  ∃ v1,
    (if decide (m_capacity v = 0) then reserve 10
     else let* f := full in
          if f then reserve (2 * m_capacity v) else ret tt) v = (Ok tt, v1) ∧
    wf v1 ∧ m_end v1 = m_end v ∧ live v1 = live v ∧
    m_end v1 < m_capacity v1 ∧
    m_capacity v1 =
      if decide (m_capacity v = 0) then 10
      else if decide (m_end v = m_capacity v) then 2 * m_capacity v
           else m_capacity v.
Proof.
  intros Hwf. pose proof Hwf as [Hle Hlen].
  destruct (decide (m_capacity v = 0)) as [H0|H0];
    [|destruct (decide (m_end v = m_capacity v)) as [Hf|Hf]].
  - destruct (reserve_spec v 10 Hwf) as (v1 & E & Hwf1 & He & Hl & Hc1).
    exists v1. repeat split; try apply Hwf1; try done; lia.
  - destruct (reserve_spec v (2 * m_capacity v) Hwf)
      as (v1 & E & Hwf1 & He & Hl & Hc1).
    exists v1. split.
    { mstep. by rewrite bool_decide_eq_true_2. }
    repeat split; try apply Hwf1; try done; lia.
  - exists v. split.
    { mstep. by rewrite bool_decide_eq_false_2 by done. }
    repeat split; try done. lia.
Qed.

(** [push_front(x)] prepends [x], with the growth of [push_back]. *)
Lemma push_front_spec v x :
  wf v →
  ∃ v', push_front x v = (Ok tt, v') ∧ wf v' ∧
    live v' = x :: live v ∧ m_end v' = S (m_end v) ∧
    m_capacity v' =
      if decide (m_capacity v = 0) then 10
      else if decide (m_end v = m_capacity v) then 2 * m_capacity v
           else m_capacity v.
Proof.
  intros Hwf.
  destruct (push_front_grow v Hwf)
    as (v1 & E1 & [Hle1 Hlen1] & He1 & Hl1 & Hlt1 & Hc1).
  destruct (shift_right v1 (Z.of_nat (m_end v1)) 0)
    as (s2 & E2 & Hlen2 & Hj2); [lia | lia |].
  eexists. split; [|split; [|split; [|split]]].
  - unfold push_front. mstep. mstep_by E1. mstep. mstep_by E2.
    eapply bind_Ok; [apply (store_in_bounds _ 0); simpl; lia|]. reflexivity.
  - unfold wf. simpl. rewrite length_insert. lia.
  - change (x :: live v) with (take 0 (live v) ++ x :: drop 0 (live v)).
    assert (length (live v) = m_end v) as Hll by (by apply wf_live_length).
    apply opened_at.
    + lia.
    + unfold live at 1. simpl. rewrite length_take, length_insert. lia.
    + rewrite Hll. intros j Hj. unfold live at 1. simpl.
      rewrite lookup_take_lt by lia. rewrite list_lookup_insert, Hj2.
      assert (∀ n : nat, n < m_end v → m_storage v1 !! n = live v !! n) as Hv1.
      { intros n Hn. rewrite <- Hl1. symmetry. apply wf_live_lookup. lia. }
      repeat case_decide; try lia; try done; by rewrite Hv1 by lia.
  - simpl. lia.
  - done.
Qed.

(** ** pop_front *)

Lemma bind_Fault {A B} (m : M T A) (k : A → M T B) v i v1 :
  m v = (Fault i, v1) → bind m k v = (Fault i, v1).
Proof. intros E. unfold bind. by rewrite E. Qed.

Lemma iter_up_last {St} n i (body : Z → St → M T St) s v :
  iter_up (S n) i body s v =
  bind (iter_up n i body s) (λ s', body (i + Z.of_nat n)%Z s') v.
Proof.
  induction n as [|n IH] in i, s, v |- *.
  - simpl. unfold bind, ret. rewrite Z.add_0_r.
    by destruct (body i s v) as [[s1|e|j] v1].
  - change (iter_up (S (S n)) i body s v)
      with (bind (body i s) (λ s', iter_up (S n) (i + 1) body s') v).
    change (iter_up (S n) i body s)
      with (bind (body i s) (λ s', iter_up n (i + 1) body s')).
    unfold bind. destruct (body i s v) as [[s1|e|j] v1]; try done.
    rewrite IH. unfold bind.
    replace (i + 1 + Z.of_nat n)%Z with (i + Z.of_nat (S n))%Z by lia. done.
Qed.

(** [pop_front()] on a container with a free slot after the last element:
    the first element goes and the others move one slot to the left. *)
Lemma pop_front_spec v :
  wf v → 0 < m_end v → m_end v < m_capacity v →
  ∃ v', pop_front v = (Ok tt, v') ∧ wf v' ∧
    live v' = drop 1 (live v) ∧ m_end v' = m_end v - 1 ∧
    m_capacity v' = m_capacity v.
Proof.
  intros [Hle Hlen] Hpos Hlt.
  destruct (shift_left v 0 (Z.of_nat (m_end v)) 1)
    as (s1 & E1 & Hlen1 & Hj1); [lia | lia | lia |].
  eexists. split; [|split; [|split; [|split]]].
  - unfold pop_front. mstep. rewrite decide_True by lia.
    mstep_by E1. reflexivity.
  - unfold wf. simpl. lia.
  - assert (length (live v) = m_end v) as Hll by (by apply wf_live_length).
    change (drop 1 (live v)) with (take 0 (live v) ++ drop (0 + 1) (live v)).
    apply closed_at.
    + lia.
    + unfold live at 1. simpl. rewrite length_take. lia.
    + rewrite Hll. intros j Hj. unfold live at 1. simpl.
      rewrite lookup_take_lt by lia. rewrite Hj1.
      rewrite !wf_live_lookup by lia.
      repeat case_decide; try lia; done.
  - done.
  - done.
Qed.

(** [pop_front()] on a full container: the last round of the loop,
    [m_storage[m_end - 1] = m_storage[m_end]], reads the slot after the
    buffer. *)
Lemma pop_front_full v :
  wf v → 0 < m_end v → m_end v = m_capacity v →
  ∃ s', pop_front v =
    (Fault (Z.of_nat (m_capacity v)),
     mk_vector (m_end v) (m_capacity v) s').
Proof.
  intros [Hle Hlen] Hpos Hfull.
  destruct (shift_left v 0 (Z.of_nat (m_end v - 1)) 1)
    as (s1 & E1 & Hlen1 & Hj1); [lia | lia | lia |].
  exists s1. unfold pop_front. mstep. rewrite decide_True by lia.
  apply bind_Fault. unfold for_lt in *.
  replace (Z.to_nat (Z.of_nat (m_end v) - 0)) with (S (m_end v - 1)) by lia.
  rewrite iter_up_last.
  replace (Z.to_nat (Z.of_nat (m_end v - 1) - 0)) with (m_end v - 1) in E1 by lia.
  mstep_by E1. apply bind_Fault. unfold load, deref. simpl.
  rewrite decide_True by lia.
  rewrite lookup_ge_None_2 by lia.
  do 2 f_equal. lia.
Qed.

(** ** insert on a container of capacity 0 *)

(** [insert] has no branch for [m_capacity == 0]: [reserve(0 * 2)] keeps
    the empty buffer, [m_end] becomes 1, and [*pos_ = value_] writes slot 0
    of a buffer without slots. *)
Lemma insert_capacity_zero v x :
  wf v → m_capacity v = 0 →
  insert 0 x v = (Fault 0, mk_vector 1 0 (m_storage v)).
Proof.
  destruct v as [e c s]. intros [Hle Hlen] Hc. simpl in *. subst c.
  assert (e = 0) as -> by lia. destruct s; [|done]. reflexivity.
Qed.

(** ** swap *)

(** [swap] exchanges the three members, so each container takes the size,
    the capacity and the buffer of the other. *)
Lemma swap_exchanges (a b : vector T) :
  (swap a b).1 = b ∧ (swap a b).2 = a.
Proof. by destruct a, b. Qed.

(** ** Copies into and between buffers *)

Lemma copy_in_step (k : nat) x (l : list T) :
  k < length l →
  take (S k) (<[k:=x]> l) = take k l ++ [x] ∧
  ∀ n, k < n → drop n (<[k:=x]> l) = drop n l.
Proof.
  intros Hk. split.
  - rewrite (take_S_r _ _ x) by (by apply list_lookup_insert_eq).
    by rewrite take_insert_ge by lia.
  - intros n Hn. by rewrite drop_insert_lt by lia.
Qed.

(** [std::copy(xs.begin(), xs.end(), m_storage + i)] inside the buffer. *)
Lemma copy_in_spec xs (k : nat) v :
  k + length xs ≤ length (m_storage v) →
  copy_in xs (Z.of_nat k) v =
    (Ok tt, mk_vector (m_end v) (m_capacity v)
              (take k (m_storage v) ++ xs ++ drop (k + length xs) (m_storage v))).
Proof.
  revert k v. induction xs as [|x xs IH]; intros k [e c s] Hb; simpl in *.
  - unfold ret. rewrite Nat.add_0_r. by rewrite take_drop.
  - eapply bind_Ok; [apply store_in_bounds; simpl; lia|]. simpl.
    replace (Z.of_nat k + 1)%Z with (Z.of_nat (S k)) by lia.
    rewrite IH by (simpl; rewrite length_insert; lia). simpl.
    destruct (copy_in_step k x s) as [Ht Hd]; [lia|].
    rewrite Ht, Hd by lia. rewrite <- app_assoc. simpl.
    by replace (k + S (length xs)) with (S (k + length xs)) by lia.
Qed.

(** [for (i = 0; i < n; i++) m_storage[i] = vec.m_storage[i];] *)
Lemma copy_from_loop vec v (n : nat) :
  n ≤ length (m_storage vec) → n ≤ length (m_storage v) →
  for_lt 0 (Z.of_nat n)
    (λ i (_ : unit), let* x := load_from vec i in store i x) tt v =
  (Ok tt, mk_vector (m_end v) (m_capacity v)
            (take n (m_storage vec) ++ drop n (m_storage v))).
Proof.
  intros Hs Hd. unfold for_lt. rewrite Z.sub_0_r, Nat2Z.id.
  destruct (iter_up_inv
    (λ k (_ : unit) v',
       v' = mk_vector (m_end v) (m_capacity v)
              (take k (m_storage vec) ++ drop k (m_storage v)))
    n 0 (λ i (_ : unit), let* x := load_from vec i in store i x) tt v)
    as ([] & v' & E & ->).
  - rewrite drop_0. by destruct v.
  - intros k [] ? Hk ->.
    destruct (lookup_lt_is_Some_2 (m_storage vec) k) as [x Hx]; [lia|].
    eexists tt, _. split; [|reflexivity]. rewrite Z.add_0_l.
    eapply bind_Ok.
    { unfold load_from. by rewrite (deref_nat _ _ _ Hx). }
    rewrite store_in_bounds; simpl.
    + by rewrite copy_step by (done || lia).
    + rewrite length_app, length_take, length_drop. lia.
  - done.
Qed.

(** [for (i = 0; i < n; i++) maior[i] = vec.m_storage[i];] *)
Lemma copy_from_to_loop vec v (n : nat) (dst : list T) :
  n ≤ length (m_storage vec) → n ≤ length dst →
  for_lt 0 (Z.of_nat n)
    (λ i buf, let* x := load_from vec i in store_to buf i x) dst v =
  (Ok (take n (m_storage vec) ++ drop n dst), v).
Proof.
  intros Hs Hd. unfold for_lt. rewrite Z.sub_0_r, Nat2Z.id.
  destruct (iter_up_inv
    (λ k buf v', v' = v ∧ buf = take k (m_storage vec) ++ drop k dst)
    n 0 (λ i buf, let* x := load_from vec i in store_to buf i x) dst v)
    as (buf & v' & E & -> & ->).
  - by rewrite drop_0.
  - intros k buf ? Hk [-> ->].
    destruct (lookup_lt_is_Some_2 (m_storage vec) k) as [x Hx]; [lia|].
    exists (take (S k) (m_storage vec) ++ drop (S k) dst), v.
    split; [|done]. rewrite Z.add_0_l.
    eapply bind_Ok.
    { unfold load_from. by rewrite (deref_nat _ _ _ Hx). }
    unfold store_to. rewrite Nat2Z.id. rewrite decide_True.
    + unfold ret. by rewrite copy_step by (done || lia).
    + rewrite length_app, length_take, length_drop. lia.
  - done.
Qed.

(** [for (i = 0; i < m_end; i++) m_storage[i].~T();] *)
Lemma destroy_loop v (n : nat) :
  n ≤ length (m_storage v) →
  for_lt 0 (Z.of_nat n) (λ i (_ : unit), destroy i) tt v = (Ok tt, v).
Proof.
  intros Hn. unfold for_lt. rewrite Z.sub_0_r, Nat2Z.id.
  destruct (iter_up_inv (λ k (_ : unit) v', v' = v)
    n 0 (λ i (_ : unit), destroy (T:=T) i) tt v) as ([] & v' & E & ->).
  - done.
  - intros k [] ? Hk ->.
    destruct (lookup_lt_is_Some_2 (m_storage v) k) as [x Hx]; [lia|].
    exists tt, v. split; [|done]. rewrite Z.add_0_l. unfold destroy.
    eapply bind_Ok; [by apply load_in_bounds|]. done.
  - done.
Qed.

Lemma vec_eq_live (a b : vector T) :
  wf a → wf b → vec_eq a b = Ok (bool_decide (live a = live b)).
Proof.
  intros Ha Hb. unfold vec_eq. destruct (decide (size a = size b)) as [Hs|Hs].
  - rewrite eq_loop_spec by (done || lia). by rewrite !drop_0.
  - rewrite bool_decide_eq_false_2; [done|]. intros El. apply Hs.
    by apply live_eq_pointwise in El as [? _].
Qed.

Lemma pop_back_spec v :
  wf v →
  pop_back v = (Ok tt, mk_vector (m_end v - 1) (m_capacity v) (m_storage v)).
Proof.
  intros [Hle Hlen]. unfold pop_back. mstep.
  destruct (decide (0 < m_end v)) as [Hp|Hp].
  - mstep. unfold destroy.
    destruct (lookup_lt_is_Some_2 (m_storage v) (m_end v - 1)) as [x Hx]; [lia|].
    eapply bind_Ok; [by apply load_in_bounds|]. done.
  - unfold ret. destruct v as [e c s]. simpl in *.
    by replace (e - 1) with e by lia.
Qed.

Lemma erase_range_spec v (first last : iterator) :
  wf v → (0 ≤ first ≤ last)%Z → (last ≤ Z.of_nat (m_end v))%Z →
  ∃ v', erase_range first last v = (Ok first, v') ∧ wf v' ∧
    m_end v' = m_end v - Z.to_nat (last - first) ∧
    live v' = take (Z.to_nat first) (live v) ++ drop (Z.to_nat last) (live v) ∧
    m_capacity v' = m_capacity v.
Proof.
  intros [Hle Hlen] Hfl Hl.
  destruct (shift_left v first (Z.of_nat (m_end v) - (last - first))
              (last - first))
    as (s1 & E1 & Hlen1 & Hj1); [lia | lia | lia |].
  eexists. split; [|split; [|split; [|split]]].
  - unfold erase_range. mstep. mstep. rewrite decide_False by lia.
    mstep_by E1. mstep. mstep. reflexivity.
  - unfold wf. simpl. lia.
  - simpl. lia.
  - assert (length (live v) = m_end v) as Hll by (by apply wf_live_length).
    replace (Z.to_nat last)
      with (Z.to_nat first + Z.to_nat (last - first)) by lia.
    apply closed_at.
    + lia.
    + unfold live at 1. simpl. rewrite length_take. lia.
    + rewrite Hll. intros j Hj. unfold live at 1. simpl.
      rewrite lookup_take_lt by lia. rewrite Hj1.
      rewrite !wf_live_lookup by lia.
      repeat case_decide; try lia; done.
  - done.
Qed.

Lemma vector_copy_spec vec :
  wf vec →
  ∃ v', vector_copy vec = (Ok tt, v') ∧ wf v' ∧ live v' = live vec ∧
    m_end v' = m_end vec ∧ m_capacity v' = m_capacity vec.
Proof.
  intros [Hle Hlen]. unfold vector_copy.
  rewrite copy_from_loop
    by (simpl; unfold new_array; rewrite ?length_replicate; lia).
  eexists. split; [reflexivity|]. unfold wf, live, new_array. simpl.
  rewrite length_app, length_take, length_drop, length_replicate.
  repeat split; try lia.
  by rewrite take_app_length' by (rewrite length_take; lia).
Qed.

Lemma vector_of_list_spec (il : list T) :
  vector_of_list il = (Ok tt, mk_vector (length il) (length il) il).
Proof.
  unfold vector_of_list.
  rewrite (copy_in_spec il 0)
    by (simpl; unfold new_array; rewrite length_replicate; lia).
  simpl. unfold new_array. rewrite drop_replicate, Nat.sub_diag. simpl.
  by rewrite app_nil_r.
Qed.

Lemma copy_assign_spec vec v :
  wf v → wf vec →
  ∃ v', copy_assign vec v = (Ok tt, v') ∧ wf v' ∧ live v' = live vec ∧
    m_end v' = m_end vec ∧
    m_capacity v' =
      if decide (m_end vec ≤ m_capacity v) then m_capacity v else m_end vec.
Proof.
  intros [Hle Hlen] [Hle' Hlen']. unfold copy_assign.
  destruct (decide (m_end vec ≤ m_capacity v)) as [Hc|Hc].
  - eexists. split.
    { mstep. rewrite decide_True by done.
      eapply bind_Ok; [apply copy_from_loop; lia|]. reflexivity. }
    unfold wf, live. simpl.
    rewrite length_app, length_take, length_drop.
    repeat split; try lia.
    by rewrite take_app_length' by (rewrite length_take; lia).
  - eexists. split.
    { mstep. rewrite decide_False by done.
      eapply bind_Ok.
      { apply copy_from_to_loop;
          [lia | unfold new_array; rewrite length_replicate; lia]. }
      mstep. mstep. reflexivity. }
    unfold wf, live, new_array. simpl.
    rewrite drop_replicate, Nat.sub_diag. simpl. rewrite app_nil_r.
    rewrite length_take.
    repeat split; try lia.
    by rewrite take_take, Nat.min_id.
Qed.

Lemma assign_list_spec xs v :
  wf v →
  ∃ v', assign_list xs v = (Ok tt, v') ∧ wf v' ∧
    live v' = xs ∧ m_end v' = length xs ∧
    (length xs ≤ m_end v →
       m_capacity v' = m_capacity v ∧
       m_storage v' = xs ++ drop (length xs) (m_storage v)) ∧
    (m_end v < length xs →
       m_capacity v' = length xs ∧ m_storage v' = xs).
Proof.
  intros [Hle Hlen]. unfold assign_list.
  destruct (decide (length xs ≤ m_end v)) as [Hc|Hc].
  - eexists. split.
    { mstep. rewrite decide_True by done. mstep.
      apply (copy_in_spec xs 0). simpl. lia. }
    unfold wf, live. simpl. rewrite length_app, length_drop.
    repeat split; try lia.
    by rewrite take_app_length.
  - eexists. split.
    { mstep. rewrite decide_False by done. mstep. mstep. mstep.
      apply (copy_in_spec xs 0). simpl. unfold new_array.
      rewrite length_replicate. lia. }
    unfold wf, live, new_array. simpl.
    rewrite drop_replicate, Nat.sub_diag. simpl. rewrite app_nil_r.
    repeat split; try lia.
    by rewrite take_ge by lia.
Qed.

Lemma deref_live v (n : nat) x :
  live v !! n = Some x → deref (m_storage v) (Z.of_nat n) = Ok x.
Proof.
  unfold live. intros Hx. apply lookup_take_Some in Hx as [Hx _].
  by apply deref_nat.
Qed.

(** ** Capacity operations *)

(** X2: [shrink_to_fit()] keeps the live elements and the size and leaves
    a capacity equal to the size. *)
Theorem shrink_to_fit_exact v :
  wf v →
  ∃ v', shrink_to_fit v = (Ok tt, v') ∧ wf v' ∧
    live v' = live v ∧ size v' = size v ∧ capacity v' = size v.
Proof.
  intros [Hle Hlen]. unfold shrink_to_fit, size, capacity.
  destruct (decide (m_end v < m_capacity v)) as [Hc|Hc].
  - eexists. split.
    { mstep. mstep. rewrite decide_True by done.
      eapply bind_Ok.
      { apply copy_out_loop;
          [lia | unfold new_array; rewrite length_replicate; lia]. }
      mstep. reflexivity. }
    unfold wf, live, new_array. simpl.
    rewrite drop_replicate, Nat.sub_diag. simpl. rewrite app_nil_r.
    rewrite length_take. repeat split; try lia.
    by rewrite take_take, Nat.min_id.
  - exists v. split.
    { mstep. mstep. by rewrite decide_False by done. }
    repeat split; try done; lia.
Qed.

(** ** Modifiers *)

(** X3: [clear()] leaves size 0 and touches neither the capacity nor the
    buffer; afterwards [front()] and [back()] throw out_of_range. *)
Theorem clear_empties v :
  wf v →
  ∃ v', clear v = (Ok tt, v') ∧ wf v' ∧ size v' = 0 ∧ live v' = [] ∧
    capacity v' = capacity v ∧ m_storage v' = m_storage v ∧
    front v' = Throw out_of_range ∧ back v' = Throw out_of_range.
Proof.
  intros [Hle Hlen]. eexists. split.
  { unfold clear. mstep. eapply bind_Ok; [apply destroy_loop; lia|].
    reflexivity. }
  unfold wf. simpl. repeat split; try done; lia.
Qed.

(** [push_back] of a value held outside the container: [x] becomes the
    last live element, read back by [back()] and by [at(old size)]. *)
Lemma push_back_value v x :
  wf v →
  ∃ v', push_back x v = (Ok tt, v') ∧ wf v' ∧
    live v' = live v ++ [x] ∧ size v' = S (size v) ∧
    back v' = Ok x ∧ at_ (size v) v' = Ok x ∧
    capacity v' =
      if decide (capacity v = 0) then 10
      else if decide (size v = capacity v) then 2 * capacity v
           else capacity v.
Proof.
  intros Hwf.
  destruct (push_back_spec v x Hwf) as (v' & E & Hwf' & Hl & He & Hc).
  exists v'. unfold size, capacity.
  assert (live v' !! m_end v = Some x) as Hx.
  { rewrite Hl, lookup_app_r by (rewrite wf_live_length by done; lia).
    rewrite wf_live_length by done. by rewrite Nat.sub_diag. }
  apply deref_live in Hx.
  repeat split; try done; try apply Hwf'.
  - unfold back. rewrite decide_True by lia.
    by replace (m_end v' - 1) with (m_end v) by lia.
  - unfold at_, size. rewrite decide_True by lia. done.
Qed.

(** X5: [pop_back()] after [push_back(x)] gives back the live elements
    and the size the container had before. *)
Theorem push_back_pop_back v x :
  wf v →
  ∃ v1 v2, push_back x v = (Ok tt, v1) ∧ pop_back v1 = (Ok tt, v2) ∧
    live v2 = live v ∧ size v2 = size v.
Proof.
  intros Hwf.
  destruct (push_back_spec v x Hwf) as (v1 & E & Hwf1 & Hl & He & Hc).
  exists v1. eexists. split; [done|]. split; [by apply pop_back_spec|].
  unfold live, size. simpl. rewrite He. simpl. rewrite Nat.sub_0_r.
  split; [|done]. fold (live v).
  transitivity (take (m_end v) (live v1)).
  { unfold live. rewrite take_take. f_equal. lia. }
  rewrite Hl. by rewrite take_app_length' by (by rewrite wf_live_length).
Qed.

(** [push_front] of a value held outside the container: [x] becomes the
    first live element, read back by [front()]. *)
Lemma push_front_value v x :
  wf v →
  ∃ v', push_front x v = (Ok tt, v') ∧ wf v' ∧
    live v' = x :: live v ∧ size v' = S (size v) ∧
    front v' = Ok x ∧
    capacity v' =
      if decide (capacity v = 0) then 10
      else if decide (size v = capacity v) then 2 * capacity v
           else capacity v.
Proof.
  intros Hwf.
  destruct (push_front_spec v x Hwf) as (v' & E & Hwf' & Hl & He & Hc).
  exists v'. unfold size, capacity.
  assert (live v' !! 0 = Some x) as Hx by (by rewrite Hl).
  apply deref_live in Hx.
  repeat split; try done; try apply Hwf'.
  unfold front. by rewrite decide_True by lia.
Qed.

(** X7: [pop_back()] never fails: on an empty container it does nothing,
    otherwise it drops the last live element; the capacity and the buffer
    stay. *)
Theorem pop_back_drops_last v :
  wf v →
  ∃ v', pop_back v = (Ok tt, v') ∧ wf v' ∧
    size v' = size v - 1 ∧ live v' = take (size v - 1) (live v) ∧
    capacity v' = capacity v ∧ m_storage v' = m_storage v ∧
    (size v = 0 → v' = v).
Proof.
  intros Hwf. pose proof Hwf as [Hle Hlen]. eexists.
  split; [by apply pop_back_spec|]. unfold wf, live, size, capacity. simpl.
  repeat split; try done; try lia.
  - rewrite take_take. f_equal. lia.
  - intros H0. destruct v as [e c s]. simpl in *. by subst e.
Qed.

(** X8: [pop_front()] on an empty container does nothing; on a container
    with a free slot after its last element it drops the first live
    element and keeps the others in order, with the capacity unchanged. *)
Theorem pop_front_with_room v :
  wf v → size v = 0 ∨ size v < capacity v →
  ∃ v', pop_front v = (Ok tt, v') ∧ wf v' ∧
    live v' = drop 1 (live v) ∧ size v' = size v - 1 ∧
    capacity v' = capacity v.
Proof.
  unfold size, capacity. intros Hwf Hroom.
  destruct (decide (m_end v = 0)) as [H0|H0].
  - exists v. split.
    { unfold pop_front. mstep. by rewrite decide_False by lia. }
    split; [done|]. unfold live. rewrite H0. simpl. by repeat split.
  - destruct (pop_front_spec v Hwf) as (v' & E & Hwf' & Hl & He & Hc);
      [lia | lia |].
    exists v'. repeat split; try done; apply Hwf'.
Qed.

(** ** insert and erase at a valid position *)

(** [insert] of a value held outside the container, on a container whose
    capacity is not 0: [x] sits at [pos] and the iterator returned points
    to it. *)
Lemma insert_value v (pos : iterator) x :
  wf v → capacity v ≠ 0 → (0 ≤ pos ≤ Z.of_nat (size v))%Z →
  ∃ v', insert pos x v = (Ok pos, v') ∧ wf v' ∧
    size v' = S (size v) ∧
    live v' = take (Z.to_nat pos) (live v) ++ x :: drop (Z.to_nat pos) (live v) ∧
    deref (m_storage v') pos = Ok x ∧
    capacity v' =
      if decide (capacity v = size v) then 2 * capacity v else capacity v.
Proof.
  unfold size, capacity. intros Hwf Hc Hpos.
  destruct (insert_spec v pos x Hwf Hc Hpos) as (v' & E & Hwf' & He & Hl & Hc').
  exists v'. repeat split; try done; try apply Hwf'.
  rewrite <- (Z2Nat.id pos) by lia. apply deref_live.
  rewrite Hl, lookup_app_r by (rewrite length_take; lia).
  rewrite length_take, wf_live_length by done.
  by replace (Z.to_nat pos - Z.to_nat pos `min` m_end v) with 0 by lia.
Qed.

(** X10: [erase(pos)] with [pos] in [begin(), end()) succeeds: the element
    at [pos] goes, the elements before and after it keep their order, the
    size drops by one, the capacity stays and the iterator returned is
    [pos]. *)
Theorem erase_closes_gap v (pos : iterator) :
  wf v → (0 ≤ pos < Z.of_nat (size v))%Z →
  ∃ v', erase pos v = (Ok pos, v') ∧ wf v' ∧
    size v' = size v - 1 ∧
    live v' = take (Z.to_nat pos) (live v) ++ drop (S (Z.to_nat pos)) (live v) ∧
    capacity v' = capacity v.
Proof. unfold size, capacity. intros Hwf Hpos. by apply erase_spec. Qed.

(** X11: [erase(first, last)] with [begin() ≤ first ≤ last ≤ end()]
    succeeds: the elements of [first, last) go, those before [first] and
    from [last] on keep their order, the size drops by [last - first], the
    capacity stays and the iterator returned is [first]; with
    [first == last] the live elements are unchanged. *)
Theorem erase_range_closes_gap v (first last : iterator) :
  wf v → (0 ≤ first ≤ last)%Z → (last ≤ Z.of_nat (size v))%Z →
  ∃ v', erase_range first last v = (Ok first, v') ∧ wf v' ∧
    size v' = size v - Z.to_nat (last - first) ∧
    live v' = take (Z.to_nat first) (live v) ++ drop (Z.to_nat last) (live v) ∧
    capacity v' = capacity v ∧
    (first = last → live v' = live v).
Proof.
  unfold size, capacity. intros Hwf Hfl Hl.
  destruct (erase_range_spec v first last Hwf Hfl Hl)
    as (v' & E & Hwf' & He & Hlv & Hc).
  exists v'. repeat split; try done; try apply Hwf'.
  intros ->. by rewrite Hlv, take_drop.
Qed.

(** X12: on a container whose capacity is not 0, [insert(pos, x)] at a
    position in [begin(), end()] followed by [erase] at the iterator that
    [insert] returned gives back the live elements and the size of
    before. *)
Theorem insert_erase_round_trip v (pos : iterator) x :
  wf v → capacity v ≠ 0 → (0 ≤ pos ≤ Z.of_nat (size v))%Z →
  ∃ v1 it v2,
    insert pos x v = (Ok it, v1) ∧ erase it v1 = (Ok it, v2) ∧
    live v2 = live v ∧ size v2 = size v.
Proof. unfold size, capacity. intros. by apply insert_then_erase. Qed.

(** ** Construction and assignment *)

(** X13: the copy constructor on a container gives a container with the
    same live elements, size and capacity, which compares equal to the
    source. *)
Theorem copy_constructor_equal vec :
  wf vec →
  ∃ v', vector_copy vec = (Ok tt, v') ∧ wf v' ∧
    live v' = live vec ∧ size v' = size vec ∧ capacity v' = capacity vec ∧
    vec_eq v' vec = Ok true.
Proof.
  intros Hwf.
  destruct (vector_copy_spec vec Hwf) as (v' & E & Hwf' & Hl & He & Hc).
  exists v'. repeat split; try done; try apply Hwf'.
  rewrite vec_eq_live by done. by rewrite bool_decide_eq_true_2.
Qed.

(** X14: construction from an initializer list or from a range gives a
    container whose live elements are the elements supplied, in order, and
    whose size and capacity are both their number. *)
Theorem construct_from_elements (xs : list T) :
  (∃ v', vector_of_list xs = (Ok tt, v') ∧ wf v' ∧ live v' = xs ∧
     size v' = length xs ∧ capacity v' = length xs) ∧
  (∃ v', vector_of_range xs = (Ok tt, v') ∧ wf v' ∧ live v' = xs ∧
     size v' = length xs ∧ capacity v' = length xs).
Proof.
  assert (vector_of_range xs = vector_of_list xs) as -> by done.
  rewrite vector_of_list_spec.
  split; eexists; (split; [reflexivity|]); unfold wf, live; simpl;
    rewrite take_ge by lia; by repeat split.
Qed.

(** X15: a container built from the range [begin(), end()) of a container
    compares equal to it, with a capacity equal to its size. *)
Theorem range_round_trip v :
  wf v →
  ∃ v', vector_of_range (live v) = (Ok tt, v') ∧ wf v' ∧
    vec_eq v' v = Ok true ∧ vec_ne v' v = Ok false ∧
    capacity v' = size v.
Proof.
  intros Hwf. assert (vector_of_range (live v) = vector_of_list (live v))
    as -> by done.
  rewrite vector_of_list_spec. eexists. split; [reflexivity|].
  assert (wf (mk_vector (length (live v)) (length (live v)) (live v))) as Hwf'.
  { by split. }
  assert (live (mk_vector (length (live v)) (length (live v)) (live v))
          = live v) as Hl.
  { unfold live at 1. simpl. by rewrite take_ge by lia. }
  split; [done|]. unfold vec_ne. rewrite vec_eq_live by done.
  rewrite bool_decide_eq_true_2 by done. simpl.
  repeat split. by apply wf_live_length.
Qed.

(** X16: copy-assignment from another container never fails: the target
    gets the live elements and the size of the source and compares equal
    to it; it keeps its own capacity when the source fits in it and
    otherwise takes a capacity equal to the size of the source. *)
Theorem copy_assign_equal vec v :
  wf v → wf vec →
  ∃ v', copy_assign vec v = (Ok tt, v') ∧ wf v' ∧
    live v' = live vec ∧ size v' = size vec ∧
    vec_eq v' vec = Ok true ∧
    capacity v' =
      if decide (size vec ≤ capacity v) then capacity v else size vec.
Proof.
  intros Hwf Hwfv.
  destruct (copy_assign_spec vec v Hwf Hwfv) as (v' & E & Hwf' & Hl & He & Hc).
  exists v'. repeat split; try done; try apply Hwf'.
  rewrite vec_eq_live by done. by rewrite bool_decide_eq_true_2.
Qed.

(** X17: [assign] from an initializer list or from a range leaves exactly
    the elements supplied.  With at most [size] elements the buffer is
    kept, its first slots are overwritten and the capacity stays; with
    more, a buffer of exactly that many slots replaces it. *)
Theorem assign_elements xs v :
  wf v →
  (∃ v', assign_list xs v = (Ok tt, v') ∧ wf v' ∧
     live v' = xs ∧ size v' = length xs ∧
     (length xs ≤ size v →
        capacity v' = capacity v ∧
        m_storage v' = xs ++ drop (length xs) (m_storage v)) ∧
     (size v < length xs →
        capacity v' = length xs ∧ m_storage v' = xs)) ∧
  assign_range xs v = assign_list xs v.
Proof. intros Hwf. split; [by apply assign_list_spec | done]. Qed.

(** ** Opening a gap of several slots *)

(** [cnt] rounds of [*it = *(it - d)] downwards from slot [hi], none of
    which reads before slot 0: slots [hi + 1 - cnt, hi] receive the
    contents [d] slots to their left. *)
Lemma shift_right_by_loop v (hi cnt d : nat) :
  hi < length (m_storage v) → d + cnt ≤ hi + 1 →
  ∃ s', iter_down cnt (Z.of_nat hi)
          (λ it (_ : unit), let* x := load (it - Z.of_nat d) in store it x)
          tt v
        = (Ok tt, mk_vector (m_end v) (m_capacity v) s') ∧
    length s' = length (m_storage v) ∧
    ∀ j : nat, s' !! j =
      if decide (hi + 1 - cnt ≤ j ≤ hi) then m_storage v !! (j - d)
      else m_storage v !! j.
Proof.
  intros Hb Hd.
  destruct (iter_down_inv
    (λ k (_ : unit) v',
       m_end v' = m_end v ∧ m_capacity v' = m_capacity v ∧
       length (m_storage v') = length (m_storage v) ∧
       ∀ j : nat, m_storage v' !! j =
         if decide (hi + 1 - k ≤ j ≤ hi) then m_storage v !! (j - d)
         else m_storage v !! j)
    cnt (Z.of_nat hi)
    (λ it (_ : unit), let* x := load (it - Z.of_nat d) in store it x) tt v)
    as ([] & [e' c' s'] & E & He & Hc & Hl & Hj); simpl in *.
  - repeat split; try done. intros j. case_decide; [lia | done].
  - intros k [] v' Hk (He & Hc & Hl & Hj).
    destruct (lookup_lt_is_Some_2 (m_storage v) (hi - k - d)) as [x Hx]; [lia|].
    assert (m_storage v' !! (hi - k - d) = Some x) as Hx'.
    { rewrite Hj. case_decide; [|done].
      replace (hi - k - d - d) with (hi - k - d) by lia. done. }
    eexists tt, _. unfold bind.
    replace (Z.of_nat hi - Z.of_nat k - Z.of_nat d)%Z
      with (Z.of_nat (hi - k - d)) by lia.
    rewrite (load_in_bounds _ _ _ Hx').
    replace (Z.of_nat hi - Z.of_nat k)%Z with (Z.of_nat (hi - k)) by lia.
    rewrite store_in_bounds by lia. split; [reflexivity|]. simpl.
    rewrite length_insert. repeat split; try done.
    intros j. rewrite list_lookup_insert, Hj.
    repeat case_decide; try lia; try done.
    replace (j - d) with (hi - k - d) by lia. done.
  - exists s'. rewrite E, He, Hc. by repeat split.
Qed.

Lemma iter_down_add {St} (a b : nat) i (body : Z → St → M T St) s v :
  iter_down (a + b) i body s v =
  bind (iter_down a i body s)
       (λ s', iter_down b (i - Z.of_nat a)%Z body s') v.
Proof.
  induction a as [|a IH] in i, s, v |- *.
  - simpl. unfold bind, ret. by rewrite Z.sub_0_r.
  - change (iter_down (S a + b) i body s v)
      with (bind (body i s) (λ s', iter_down (a + b) (i - 1) body s') v).
    change (iter_down (S a) i body s)
      with (bind (body i s) (λ s', iter_down a (i - 1) body s')).
    unfold bind. destruct (body i s v) as [[s1|e|j] v1]; try done.
    rewrite IH. unfold bind.
    replace (i - 1 - Z.of_nat a)%Z with (i - Z.of_nat (S a))%Z by lia. done.
Qed.

(** The same rounds when they go on below slot [d]: the round at slot
    [d - 1] reads the slot before the buffer. *)
Lemma shift_right_by_fault v (hi cnt d : nat) :
  hi < length (m_storage v) → d ≤ hi + 1 → hi + 1 < d + cnt →
  ∃ s', iter_down cnt (Z.of_nat hi)
          (λ it (_ : unit), let* x := load (it - Z.of_nat d) in store it x)
          tt v
        = (Fault (-1), mk_vector (m_end v) (m_capacity v) s') ∧
    length s' = length (m_storage v).
Proof.
  intros Hb Hd Hc.
  destruct (shift_right_by_loop v hi (hi + 1 - d) d)
    as (s' & E & Hl & _); [done | lia |].
  exists s'. split; [|done].
  replace cnt with ((hi + 1 - d) + S (cnt - (hi + 1 - d) - 1)) by lia.
  rewrite iter_down_add. eapply bind_Ok; [exact E|].
  simpl. apply bind_Fault. apply bind_Fault.
  unfold load, deref. rewrite decide_False by lia.
  do 2 f_equal. lia.
Qed.

(** The loop of the range [insert], which carries the index [i] next to
    the iterator, against the loop without it. *)
Lemma iter_down_indexed (n : nat) (it : Z) (d : Z) v :
  iter_down n it
    (λ it i, let* x := load (it - d) in do store i x then ret (i - 1)%Z)
    it v =
  match iter_down n it
          (λ it (_ : unit), let* x := load (it - d) in store it x) tt v with
  | (Ok _, v') => (Ok (it - Z.of_nat n)%Z, v')
  | (Throw e, v') => (Throw e, v')
  | (Fault j, v') => (Fault j, v')
  end.
Proof.
  induction n as [|n IH] in it, v |- *; simpl.
  - unfold ret. by rewrite Z.sub_0_r.
  - unfold bind, load, ret.
    destruct (deref (m_storage v) (it - d)) as [x|e|j]; try done.
    destruct (store it x v) as [[[]|e|j] v1]; try done.
    rewrite IH.
    destruct (iter_down n (it - 1) _ tt v1) as [[[]|e|j] v2]; try done.
    do 2 f_equal. lia.
Qed.

(** A list that agrees slot by slot with [l] opened at [p] for [xs]. *)
Lemma spliced_at (l l' xs : list T) (p : nat) :
  p ≤ length l → length l' = length l + length xs →
  (∀ j : nat, j < p → l' !! j = l !! j) →
  (∀ j : nat, j < length xs → l' !! (p + j) = xs !! j) →
  (∀ j : nat, p ≤ j → j < length l → l' !! (j + length xs) = l !! j) →
  l' = take p l ++ xs ++ drop p l.
Proof.
  intros Hp Hl H1 H2 H3. apply list_eq. intros j.
  destruct (decide (j < p)) as [Hj|Hj].
  { rewrite H1 by done. rewrite lookup_app_l by (rewrite length_take; lia).
    by rewrite lookup_take_lt by lia. }
  rewrite lookup_app_r by (rewrite length_take; lia).
  rewrite length_take. replace (p `min` length l) with p by lia.
  destruct (decide (j - p < length xs)) as [Hx|Hx].
  { rewrite lookup_app_l by done. rewrite <- H2 by done. f_equal. lia. }
  rewrite lookup_app_r by lia. rewrite lookup_drop.
  destruct (decide (j < length l + length xs)) as [Hjl|Hjl].
  - rewrite <- H3 by lia. f_equal. lia.
  - rewrite !lookup_ge_None_2; [done | lia | lia].
Qed.

Lemma shift_right_by v (hi : Z) (cnt d : nat) :
  (hi < Z.of_nat (length (m_storage v)))%Z →
  cnt = 0 ∨ (Z.of_nat d + Z.of_nat cnt ≤ hi + 1)%Z →
  ∃ s', iter_down cnt hi
          (λ it (_ : unit), let* x := load (it - Z.of_nat d) in store it x)
          tt v
        = (Ok tt, mk_vector (m_end v) (m_capacity v) s') ∧
    length s' = length (m_storage v) ∧
    ∀ j : nat, s' !! j =
      if decide (hi + 1 - Z.of_nat cnt ≤ Z.of_nat j ≤ hi)%Z
      then m_storage v !! (j - d) else m_storage v !! j.
Proof.
  intros Hb [->|Hd].
  - exists (m_storage v). simpl. unfold ret.
    split; [by destruct v|]. split; [done|].
    intros j. case_decide; [lia | done].
  - destruct (decide (cnt = 0)) as [->|Hc].
    { exists (m_storage v). simpl. unfold ret.
      split; [by destruct v|]. split; [done|].
      intros j. case_decide; [lia | done]. }
    destruct (shift_right_by_loop v (Z.to_nat hi) cnt d)
      as (s' & E & Hl & Hj); [lia | lia |].
    rewrite Z2Nat.id in E by lia. exists s'. repeat split; try done.
    intros j. rewrite Hj. repeat case_decide; try lia; done.
Qed.

(** ** insert of several elements *)

(** The growth step of the initializer-list [insert]:
    [if (full()) reserve(m_capacity + n_elem);]. *)
Lemma insert_list_grow v (k : nat) :
  wf v → m_end v = m_capacity v ∨ m_end v + k ≤ m_capacity v →
  ∃ v1,
    (if bool_decide (m_capacity v = m_end v)
     then let* cap := get_capacity in reserve (cap + k)
     else ret tt) v = (Ok tt, v1) ∧
    wf v1 ∧ m_end v1 = m_end v ∧ live v1 = live v ∧
    m_end v1 + k ≤ m_capacity v1 ∧
    m_capacity v1 =
      if decide (m_capacity v = m_end v) then m_capacity v + k
      else m_capacity v.
Proof.
  intros Hwf Hroom. destruct (decide (m_capacity v = m_end v)) as [Hf|Hf].
  - rewrite bool_decide_eq_true_2 by done.
    destruct (reserve_spec v (m_capacity v + k) Hwf)
      as (v1 & E & Hwf1 & He & Hl & Hc1).
    exists v1. split; [by mstep|]. repeat split; try apply Hwf1; try done; lia.
  - rewrite bool_decide_eq_false_2 by done.
    exists v. destruct Hwf as [Hle Hlen]. repeat split; try done. lia.
Qed.

(** The growth step of the range [insert]:
    [if (full() || (m_end + dif) > m_capacity) reserve(m_capacity + dif);]. *)
Lemma insert_range_grow v (k : nat) :
  wf v →
  ∃ v1,
    (if decide (bool_decide (m_capacity v = m_end v) = true
                ∨ m_capacity v < m_end v + k)
     then reserve (m_capacity v + k) else ret tt) v = (Ok tt, v1) ∧
    wf v1 ∧ m_end v1 = m_end v ∧ live v1 = live v ∧
    m_end v1 + k ≤ m_capacity v1 ∧
    m_capacity v1 =
      if decide (m_capacity v = m_end v ∨ m_capacity v < m_end v + k)
      then m_capacity v + k else m_capacity v.
Proof.
  intros Hwf. pose proof Hwf as [Hle Hlen].
  destruct (decide (m_capacity v = m_end v ∨ m_capacity v < m_end v + k))
    as [Hg|Hg].
  - rewrite decide_True; last first.
    { destruct Hg as [Hf|Hg]; [left; by apply bool_decide_eq_true_2 | by right]. }
    destruct (reserve_spec v (m_capacity v + k) Hwf)
      as (v1 & E & Hwf1 & He & Hl & Hc1).
    exists v1. repeat split; try apply Hwf1; try done; lia.
  - rewrite decide_False; last first.
    { intros [Hf%bool_decide_eq_true|Hlt]; apply Hg; [by left | by right]. }
    exists v. repeat split; try done. lia.
Qed.

(** The live elements after the gap is opened at [p] and filled by [xs]:
    [s'] is the buffer after the shift, [s1] the buffer before it. *)
Lemma live_after_splice (l s1 s' xs : list T) (n p lo : nat) :
  l = take n s1 → n ≤ length s1 → p ≤ n →
  n + length xs ≤ length s' → length s' = length s1 →
  p ≤ lo → lo ≤ p + length xs →
  (∀ j : nat, s' !! j =
     if decide (lo ≤ j ≤ n + length xs - 1) then s1 !! (j - length xs)
     else s1 !! j) →
  take (n + length xs)
       (take p s' ++ xs ++ drop (p + length xs) s') =
  take p l ++ xs ++ drop p l.
Proof.
  intros -> Hn Hp Hb Hl Hlo Hlo' Hj.
  assert (length (take n s1) = n) as Hln by (rewrite length_take; lia).
  assert (length (take p s') = p) as Hlp by (rewrite length_take; lia).
  apply spliced_at.
  - lia.
  - rewrite length_take, !length_app, length_drop, Hlp, Hln. lia.
  - intros j Hjp. rewrite lookup_take_lt by lia.
    rewrite lookup_app_l by lia. rewrite !lookup_take_lt by lia.
    rewrite Hj. case_decide; [lia | done].
  - intros j Hjx. rewrite lookup_take_lt by lia.
    rewrite lookup_app_r by lia. rewrite Hlp.
    replace (p + j - p) with j by lia. by rewrite lookup_app_l by done.
  - intros j Hpj Hjn. rewrite Hln in Hjn. rewrite lookup_take_lt by lia.
    rewrite lookup_app_r by lia. rewrite Hlp.
    rewrite lookup_app_r by lia. rewrite lookup_drop, Hj.
    rewrite lookup_take_lt by lia.
    case_decide; [|lia]. f_equal. lia.
Qed.


(** The initializer-list [insert] with [pos] in [begin(), end()], at
    least as many elements before [pos] as are inserted, and a container
    that is full or has room for them. *)
Lemma insert_list_spec v (pos : iterator) xs :
  wf v → (Z.of_nat (length xs) ≤ pos ≤ Z.of_nat (m_end v))%Z →
  m_end v = m_capacity v ∨ m_end v + length xs ≤ m_capacity v →
  ∃ v', insert_list pos xs v = (Ok pos, v') ∧ wf v' ∧
    m_end v' = m_end v + length xs ∧
    live v' = take (Z.to_nat pos) (live v) ++ xs ++ drop (Z.to_nat pos) (live v) ∧
    m_capacity v' =
      if decide (m_capacity v = m_end v) then m_capacity v + length xs
      else m_capacity v.
Proof.
  intros Hwf Hpos Hroom.
  destruct (insert_list_grow v (length xs) Hwf Hroom)
    as (v1 & E1 & [Hle1 Hlen1] & He1 & Hl1 & Hroom1 & Hc1).
  set (v2 := mk_vector (m_end v1 + length xs) (m_capacity v1) (m_storage v1)).
  set (hi := (Z.of_nat (m_end v1 + length xs) - 1)%Z).
  set (lo := (0 + (pos - 0))%Z).
  destruct (shift_right_by v2 hi (Z.to_nat (hi - lo + 1)) (length xs))
    as (s3 & E3 & Hlen3 & Hj3); [simpl; lia | lia |].
  simpl in Hlen3, Hj3.
  set (v3 := mk_vector (m_end v1 + length xs) (m_capacity v1) s3) in *.
  assert (copy_in xs lo v3 =
          (Ok tt, mk_vector (m_end v1 + length xs) (m_capacity v1)
                    (take (Z.to_nat pos) s3 ++ xs ++
                     drop (Z.to_nat pos + length xs) s3))) as E4.
  { replace lo with (Z.of_nat (Z.to_nat pos)) by lia.
    apply copy_in_spec. simpl. lia. }
  eexists. split; [|split; [|split; [|split]]].
  - unfold insert_list. mstep. mstep. rewrite decide_False by lia.
    mstep. mstep_by E1. mstep. mstep. mstep. mstep.
    mstep_by E3. mstep_by E4. unfold ret. f_equal. f_equal. lia.
  - unfold wf. simpl.
    rewrite !length_app, length_take, length_drop. lia.
  - simpl. lia.
  - unfold live at 1. simpl. rewrite He1.
    apply (live_after_splice _ (m_storage v1) s3 xs (m_end v) _
             (Z.to_nat pos)); try lia.
    + rewrite <- Hl1. unfold live. by rewrite He1.
    + intros j. rewrite Hj3. destruct (length xs) as [|k] eqn:Ek.
      * rewrite !Nat.sub_0_r. by repeat case_decide.
      * repeat case_decide; try lia; done.
  - done.
Qed.

(** ** Size, capacity and number of slots along a call *)

Lemma same_shape_refl v : same_shape v v.
Proof. by repeat split. Qed.

Lemma same_shape_trans v1 v2 v3 :
  same_shape v1 v2 → same_shape v2 v3 → same_shape v1 v3.
Proof. intros (?&?&?) (?&?&?). repeat split; congruence. Qed.

Lemma same_shape_wf v v' : same_shape v v' → wf v → wf v'.
Proof. intros (?&?&?) [? ?]. split; congruence. Qed.

Lemma shape_kept_ret {A} (a : A) : shape_kept (ret (T:=T) a).
Proof. intros v. apply same_shape_refl. Qed.
Lemma shape_kept_throw {A} e : shape_kept (throw (T:=T) (A:=A) e).
Proof. intros v. apply same_shape_refl. Qed.
Lemma shape_kept_fault {A} i : shape_kept (fault (T:=T) (A:=A) i).
Proof. intros v. apply same_shape_refl. Qed.
Lemma shape_kept_get_end : shape_kept (get_end (T:=T)).
Proof. intros v. apply same_shape_refl. Qed.
Lemma shape_kept_get_capacity : shape_kept (get_capacity (T:=T)).
Proof. intros v. apply same_shape_refl. Qed.
Lemma shape_kept_load i : shape_kept (load (T:=T) i).
Proof. intros v. apply same_shape_refl. Qed.
Lemma shape_kept_load_from vec i : shape_kept (load_from (T:=T) vec i).
Proof. intros v. apply same_shape_refl. Qed.
Lemma shape_kept_begin : shape_kept (begin_ (T:=T)).
Proof. intros v. apply same_shape_refl. Qed.
Lemma shape_kept_store i x : shape_kept (store i x).
Proof.
  intros v. unfold state_after, store. case_decide; simpl.
  - repeat split. simpl. by rewrite length_insert.
  - apply same_shape_refl.
Qed.
Lemma shape_kept_store_to buf i x : shape_kept (store_to buf i x).
Proof.
  intros v. unfold state_after, store_to. case_decide; apply same_shape_refl.
Qed.

Lemma shape_kept_bind {A B} (m : M T A) (k : A → M T B) :
  shape_kept m → (∀ a, shape_kept (k a)) → shape_kept (bind m k).
Proof.
  intros Hm Hk v. specialize (Hm v). unfold state_after, bind in *.
  destruct (m v) as [[a|e|i] v1]; simpl in *; try done.
  eapply same_shape_trans; [exact Hm | apply Hk].
Qed.

Lemma shape_kept_iter_up {St} n i (body : Z → St → M T St) s :
  (∀ i s, shape_kept (body i s)) → shape_kept (iter_up n i body s).
Proof.
  intros Hb. induction n as [|n IH] in i, s |- *; simpl.
  - apply shape_kept_ret.
  - apply shape_kept_bind; [done|]. intros s'. apply IH.
Qed.

Lemma shape_kept_iter_down {St} n i (body : Z → St → M T St) s :
  (∀ i s, shape_kept (body i s)) → shape_kept (iter_down n i body s).
Proof.
  intros Hb. induction n as [|n IH] in i, s |- *; simpl.
  - apply shape_kept_ret.
  - apply shape_kept_bind; [done|]. intros s'. apply IH.
Qed.

Lemma shape_kept_copy_in xs i : shape_kept (copy_in xs i).
Proof.
  induction xs as [|x xs IH] in i |- *; simpl.
  - apply shape_kept_ret.
  - apply shape_kept_bind; [apply shape_kept_store|]. intros _. apply IH.
Qed.

Create HintDb shape discriminated.
#[local] Hint Resolve shape_kept_ret shape_kept_throw shape_kept_fault
  shape_kept_get_end shape_kept_get_capacity shape_kept_load
  shape_kept_load_from shape_kept_begin shape_kept_store
  shape_kept_store_to shape_kept_copy_in : shape.

(** Closes [shape_kept] goals on code made of reads, writes and loops. *)
Ltac shape_auto :=
  repeat first
    [ progress intros
    | solve [eauto with shape]
    | apply shape_kept_bind
    | apply shape_kept_iter_up
    | apply shape_kept_iter_down
    | case_decide
    | match goal with |- context [if ?b then _ else _] => destruct b end ].

(** A call on a container leaves a container when all it does from some
    state on keeps the shape. *)
Lemma wf_shape_kept {A} (m : M T A) v :
  shape_kept m → wf v → wf (state_after m v).
Proof. intros Hm Hwf. by eapply same_shape_wf. Qed.

Lemma state_after_bind_Ok {A B} (m : M T A) (k : A → M T B) v a v1 :
  m v = (Ok a, v1) → state_after (bind m k) v = state_after (k a) v1.
Proof. intros E. unfold state_after, bind. by rewrite E. Qed.

(** A shape-keeping part followed by a last update of the members. *)
Lemma wf_bind_shape {A B} (m : M T A) (k : A → M T B) v :
  shape_kept m → wf v →
  (∀ a v1, same_shape v v1 → wf (state_after (k a) v1)) →
  wf (state_after (bind m k) v).
Proof.
  intros Hm Hwf Hk. specialize (Hm v). unfold state_after, bind in *.
  destruct (m v) as [[a|e|i] v1]; simpl in *.
  - by apply Hk.
  - by eapply same_shape_wf.
  - by eapply same_shape_wf.
Qed.

Ltac sstep := erewrite state_after_bind_Ok; [cbv beta | reflexivity].
Ltac sstep_by E := rewrite (state_after_bind_Ok _ _ _ _ _ E); cbv beta.

Lemma wf_after_Ok {A} (m : M T A) v a v' :
  m v = (Ok a, v') → wf v' → wf (state_after m v).
Proof. intros E Hwf. unfold state_after. by rewrite E. Qed.

Lemma wf_shrink_to_fit v : wf v → wf (state_after shrink_to_fit v).
Proof.
  intros [Hle Hlen]. unfold shrink_to_fit. sstep. sstep.
  destruct (decide (m_end v < m_capacity v)) as [Hc|Hc]; [|done].
  erewrite state_after_bind_Ok; last first.
  { apply copy_out_loop;
      [lia | unfold new_array; rewrite length_replicate; lia]. }
  unfold wf, state_after, new_array. simpl.
  rewrite length_app, length_take, length_drop, length_replicate. lia.
Qed.

Lemma wf_clear v : wf v → wf (state_after clear v).
Proof.
  intros Hwf. unfold clear. sstep.
  apply wf_bind_shape; [unfold for_lt, destroy; shape_auto | done |].
  intros _ v1 (He & Hc & Hl). destruct Hwf as [Hle Hlen].
  unfold wf, state_after. simpl. lia.
Qed.

Lemma wf_pop_front v : wf v → wf (state_after pop_front v).
Proof.
  intros Hwf. unfold pop_front. sstep.
  destruct (decide (0 < m_end v)) as [Hp|Hp]; [|done].
  apply wf_bind_shape; [unfold for_lt; shape_auto | done |].
  intros _ v1 (He & Hc & Hl). destruct Hwf as [Hle Hlen].
  unfold wf, state_after. simpl. lia.
Qed.

Lemma wf_assign v (count : nat) x : wf v → wf (state_after (assign count x) v).
Proof.
  intros [Hle Hlen]. unfold assign. sstep.
  destruct (decide (count ≤ m_end v)) as [Hc|Hc].
  - sstep. apply wf_shape_kept; [unfold for_lt; shape_auto|].
    unfold wf. simpl. lia.
  - sstep. sstep. sstep. apply wf_shape_kept; [unfold for_lt; shape_auto|].
    unfold wf, new_array. simpl. rewrite length_replicate. lia.
Qed.

Lemma wf_erase v (pos : iterator) : wf v → wf (state_after (erase pos) v).
Proof.
  intros Hwf. unfold erase. sstep. sstep.
  destruct (decide (pos >= 0 ∧ pos < Z.of_nat (m_end v))%Z) as [Hp|Hp]; [|done].
  apply wf_bind_shape; [unfold for_lt; shape_auto | done |].
  intros _ v1 (He & Hc & Hl). destruct Hwf as [Hle Hlen].
  sstep. sstep. unfold wf, state_after. simpl. lia.
Qed.

Lemma wf_erase_range v (first last : iterator) :
  wf v → wf (state_after (erase_range first last) v).
Proof.
  intros Hwf. unfold erase_range. sstep. sstep.
  destruct (decide (first > last ∨ first < 0 ∨ last > Z.of_nat (m_end v))%Z)
    as [Hp|Hp]; [done|].
  apply wf_bind_shape; [unfold for_lt; shape_auto | done |].
  intros _ v1 (He & Hc & Hl). destruct Hwf as [Hle Hlen].
  sstep. sstep. unfold wf, state_after. simpl. lia.
Qed.

Lemma wf_insert v (pos : iterator) x :
  wf v → ¬ (m_capacity v = 0 ∧ (0 ≤ pos ≤ Z.of_nat (m_end v))%Z) →
  wf (state_after (insert pos x) v).
Proof.
  intros Hwf Hsafe.
  destruct (decide (0 ≤ pos ≤ Z.of_nat (m_end v))%Z) as [Hpos|Hpos].
  - destruct (insert_spec v pos x Hwf) as (v' & E & Hwf' & _); [lia | done |].
    by eapply wf_after_Ok.
  - unfold insert. sstep. sstep. unfold state_after.
    by rewrite decide_True by lia.
Qed.

Lemma wf_insert_range v (pos : iterator) xs :
  wf v → wf (state_after (insert_range pos xs) v).
Proof.
  intros Hwf. unfold insert_range. sstep. sstep.
  destruct (decide (pos < 0 ∨ pos > Z.of_nat (m_end v))%Z) as [Hp|Hp]; [done|].
  destruct (insert_range_grow v (length xs) Hwf)
    as (v1 & E1 & [Hle1 Hlen1] & He1 & Hl1 & Hroom1 & Hc1).
  sstep. sstep. sstep. sstep_by E1. sstep.
  apply wf_shape_kept; [unfold begin_, end_, for_gt; shape_auto|].
  unfold wf. simpl. lia.
Qed.

Lemma wf_insert_list v (pos : iterator) xs :
  wf v →
  ¬ ((0 ≤ pos ≤ Z.of_nat (m_end v))%Z ∧ m_end v ≠ m_capacity v ∧
     m_capacity v < m_end v + length xs) →
  wf (state_after (insert_list pos xs) v).
Proof.
  intros Hwf Hsafe. unfold insert_list. sstep. sstep.
  destruct (decide (pos < 0 ∨ pos > Z.of_nat (m_end v))%Z) as [Hp|Hp]; [done|].
  destruct (insert_list_grow v (length xs) Hwf)
    as (v1 & E1 & [Hle1 Hlen1] & He1 & Hl1 & Hroom1 & Hc1); [lia|].
  sstep. sstep_by E1. sstep. sstep.
  apply wf_shape_kept; [unfold begin_, end_, for_ge; shape_auto|].
  unfold wf. simpl. lia.
Qed.

(** The size the initializer-list [insert] leaves when the list does not
    fit in a container that is not full. *)
Lemma insert_list_overfill v (pos : iterator) xs :
  wf v → (0 ≤ pos ≤ Z.of_nat (m_end v))%Z → m_end v ≠ m_capacity v →
  same_shape (mk_vector (m_end v + length xs) (m_capacity v) (m_storage v))
             (state_after (insert_list pos xs) v).
Proof.
  intros Hwf Hpos Hnf. unfold insert_list. sstep. sstep.
  rewrite decide_False by lia. sstep.
  rewrite bool_decide_eq_false_2 by lia. sstep. sstep. sstep.
  set (v2 := mk_vector _ _ _). 
  assert (shape_kept
    (let* b := begin_ in
     let* e := end_ in
     do for_ge (e - 1) (b + (pos - 0))
          (λ it (_ : unit),
             let* x := load (it - Z.of_nat (length xs)) in store it x) tt then
     do copy_in xs (b + (pos - 0)) then ret (b + (pos - 0))%Z)) as Hk.
  { unfold begin_, end_, for_ge. shape_auto. }
  apply (Hk v2).
Qed.

(** ** The representation invariant *)

(** X19: every operation leaves [size ≤ capacity = number of slots] on a
    container that had it, whatever the result of the call, except in two
    cases, where it always breaks it: the single-element [insert] at a
    valid position of a container of capacity 0, and the initializer-list
    [insert] at a valid position of a container that is not full and has
    no room for the list. *)
Theorem invariant_kept_exactly (op : operation T) v :
  wf v → sources_wf op →
  wf (run_op op v) ↔ overfills op v = false.
Proof.
  intros Hwf Hsrc. split.
  - intros Hafter. destruct (overfills op v) eqn:Hover; [|done]. exfalso.
    destruct op; simpl in Hover; try done;
      apply bool_decide_eq_true in Hover; simpl in Hafter.
    + destruct Hover as [Hc Hpos]. pose proof Hwf as [Hle Hlen].
      assert (pos_ = 0%Z) as -> by lia.
      unfold state_after in Hafter.
      rewrite insert_capacity_zero in Hafter by done.
      destruct Hafter as [Hle' _]. simpl in Hle'. lia.
    + destruct Hover as (Hpos & Hnf & Hroom).
      destruct (insert_list_overfill v pos_ ilist_ Hwf Hpos Hnf)
        as (He & Hc & _).
      destruct Hafter as [Hle' _]. simpl in He, Hc. lia.
  - intros Hover. destruct op; simpl in *.
    + destruct (reserve_spec v alocar Hwf) as (v' & E & Hwf' & _).
      by eapply wf_after_Ok.
    + by apply wf_shrink_to_fit.
    + destruct (copy_assign_spec vec v Hwf Hsrc) as (v' & E & Hwf' & _).
      by eapply wf_after_Ok.
    + by apply wf_clear.
    + destruct (push_front_spec v st Hwf) as (v' & E & Hwf' & _).
      by eapply wf_after_Ok.
    + destruct (push_back_spec v st Hwf) as (v' & E & Hwf' & _).
      by eapply wf_after_Ok.
    + eapply wf_after_Ok; [by apply pop_back_spec|].
      destruct Hwf as [Hle Hlen]. unfold wf. simpl. lia.
    + by apply wf_pop_front.
    + apply wf_insert; [done|]. by apply bool_decide_eq_false in Hover.
    + by apply wf_insert_range.
    + apply wf_insert_list; [done|]. by apply bool_decide_eq_false in Hover.
    + by apply wf_assign.
    + destruct (assign_list_spec ilist v Hwf) as (v' & E & Hwf' & _).
      by eapply wf_after_Ok.
    + destruct (assign_list_spec xs v Hwf) as (v' & E & Hwf' & _).
      by eapply (wf_after_Ok (assign_list xs)).
    + by apply wf_erase_range.
    + by apply wf_erase.
Qed.

(** ** insert of several elements, from outside *)


(** X21: the initializer-list [insert] with [pos] in [begin(), end()], at
    least as many elements before [pos] as are inserted, and a container
    that is full or has room for the list succeeds: the elements supplied
    sit at [pos], in order, between the elements that were before and
    from [pos]; the iterator returned is [pos]; a full container grows by
    the number of elements. *)
Theorem insert_list_places_elements v (pos : iterator) xs :
  wf v → (Z.of_nat (length xs) ≤ pos ≤ Z.of_nat (size v))%Z →
  size v = capacity v ∨ size v + length xs ≤ capacity v →
  ∃ v', insert_list pos xs v = (Ok pos, v') ∧ wf v' ∧
    size v' = size v + length xs ∧
    live v' = take (Z.to_nat pos) (live v) ++ xs ++ drop (Z.to_nat pos) (live v) ∧
    capacity v' =
      if decide (capacity v = size v) then capacity v + length xs
      else capacity v.
Proof. unfold size, capacity. intros. by apply insert_list_spec. Qed.

(** X22: with [pos] in [begin(), end()], the range [insert] of more than
    [pos - begin() + 1] elements, and the initializer-list [insert] of
    more than [pos - begin()] elements into a container that is full or
    has room for them, read the slot before the buffer: the shift loops
    run down to [pos], reading [it - n] below slot 0. *)
Theorem insert_elements_reads_before_buffer v (pos : iterator) xs :
  wf v → (0 ≤ pos ≤ Z.of_nat (size v))%Z →
  ((pos + 1 < Z.of_nat (length xs))%Z →
     (insert_range pos xs v).1 = Fault (-1)) ∧
  ((pos < Z.of_nat (length xs))%Z →
     size v = capacity v ∨ size v + length xs ≤ capacity v →
     (insert_list pos xs v).1 = Fault (-1)).
Proof.
  unfold size, capacity. intros Hwf Hpos. split.
  - intros Hk.
    destruct (insert_range_grow v (length xs) Hwf)
      as (v1 & E1 & [Hle1 Hlen1] & He1 & Hl1 & Hroom1 & Hc1).
    set (v2 := mk_vector (m_end v + length xs) (m_capacity v1) (m_storage v1)).
    set (hi := (Z.of_nat (m_end v + length xs) - 1)%Z).
    set (lo := (0 + (pos - 0))%Z).
    destruct (shift_right_by_fault v2 (m_end v + length xs - 1)
                (Z.to_nat (hi - lo)) (length xs))
      as (s3 & E3 & _); [simpl; lia | lia | lia |].
    assert (for_gt hi lo
              (λ it i, let* x := load (it - Z.of_nat (length xs)) in
                       do store i x then ret (i - 1)%Z) hi v2
            = (Fault (-1), mk_vector (m_end v2) (m_capacity v2) s3)) as E3'.
    { assert (Z.of_nat (m_end v + length xs - 1) = hi) as Hhi by lia.
      rewrite Hhi in E3. unfold for_gt. rewrite iter_down_indexed.
      by rewrite E3. }
    assert (insert_range pos xs v =
            (Fault (-1), mk_vector (m_end v2) (m_capacity v2) s3)) as ->;
      [|done].
    unfold insert_range. mstep. mstep. rewrite decide_False by lia.
    mstep. mstep. mstep. mstep_by E1. mstep. mstep. mstep. mstep.
    apply bind_Fault. exact E3'.
  - intros Hk Hroom.
    destruct (insert_list_grow v (length xs) Hwf Hroom)
      as (v1 & E1 & [Hle1 Hlen1] & He1 & Hl1 & Hroom1 & Hc1).
    set (v2 := mk_vector (m_end v1 + length xs) (m_capacity v1) (m_storage v1)).
    set (hi := (Z.of_nat (m_end v1 + length xs) - 1)%Z).
    set (lo := (0 + (pos - 0))%Z).
    destruct (shift_right_by_fault v2 (m_end v1 + length xs - 1)
                (Z.to_nat (hi - lo + 1)) (length xs))
      as (s3 & E3 & _); [simpl; lia | lia | lia |].
    assert (for_ge hi lo
              (λ it (_ : unit),
                 let* x := load (it - Z.of_nat (length xs)) in store it x)
              tt v2
            = (Fault (-1), mk_vector (m_end v2) (m_capacity v2) s3)) as E3'.
    { assert (Z.of_nat (m_end v1 + length xs - 1) = hi) as Hhi by lia.
      rewrite Hhi in E3. exact E3. }
    assert (insert_list pos xs v =
            (Fault (-1), mk_vector (m_end v2) (m_capacity v2) s3)) as ->;
      [|done].
    unfold insert_list. mstep. mstep. rewrite decide_False by lia.
    mstep. mstep_by E1. mstep. mstep. mstep. mstep.
    apply bind_Fault. exact E3'.
Qed.

(** ** Arguments passed by reference *)

(** A reference to a value outside the container reads that value. *)
Lemma read_outside x (moved : bool) v : read_cref (Outside x) moved v = (Ok x, v).
Proof. done. Qed.

(** A reference into the buffer in use reads the slot as it is now. *)
Lemma read_slot v (i : Z) y :
  deref (m_storage v) i = Ok y → read_cref (Slot i) false v = (Ok y, v).
Proof. intros E. unfold read_cref, load. by rewrite E. Qed.

(** A reference into a buffer that [reserve] freed has nothing to read. *)
Lemma read_freed v (i : Z) : read_cref (Slot i) true v = (Fault i, v).
Proof. done. Qed.

(** [reserve] as [reserve_moves] runs it, with the report of whether the
    buffer was replaced. *)
Lemma reserve_moves_spec v (alocar : nat) :
  wf v →
  ∃ v', reserve alocar v = (Ok tt, v') ∧
    reserve_moves alocar v = (Ok (bool_decide (m_capacity v < alocar)), v').
Proof.
  intros Hwf. destruct (reserve_spec v alocar Hwf) as (v' & E & _).
  exists v'. split; [done|]. unfold reserve_moves. mstep. by mstep_by E.
Qed.

(** For a value outside the container the three modifiers are the
    functions of a value. *)
Lemma push_back_ref_outside x v : push_back_ref (Outside x) v = push_back x v.
Proof.
  unfold push_back_ref, push_back, reserve_moves, read_cref.
  unfold bind, get_capacity, get_end, ret. simpl.
  repeat case_decide; try done; by destruct (reserve _ v) as [[[]|?|?] ?].
Qed.

Lemma push_front_ref_outside x v : push_front_ref (Outside x) v = push_front x v.
Proof.
  unfold push_front_ref, push_front, reserve_moves, read_cref.
  unfold bind, full, get_capacity, get_end, ret. simpl.
  case_decide; [|case_bool_decide]; try done;
    by destruct (reserve _ v) as [[[]|?|?] ?].
Qed.

Lemma insert_ref_outside (pos : iterator) x v :
  insert_ref pos (Outside x) v = insert pos x v.
Proof.
  unfold insert_ref, insert, reserve_moves, read_cref.
  unfold bind, begin_, end_, full, get_capacity, get_end, set_end, ret. simpl.
  case_decide; [done|]. case_bool_decide; try done.
  by destruct (reserve _ v) as [[[]|?|?] ?].
Qed.

(** The growth step of the three modifiers, with its report: the buffer is
    replaced exactly when the container is full, and is the same object
    otherwise. *)
Lemma push_back_ref_grow v :
  wf v →
  ∃ v1,
    (if decide (m_capacity v = 0) then reserve_moves 10
     else if decide (m_end v = m_capacity v)
          then reserve_moves (2 * m_capacity v)
          else ret false) v
      = (Ok (bool_decide (m_end v = m_capacity v)), v1) ∧
    wf v1 ∧ m_end v1 = m_end v ∧ live v1 = live v ∧
    m_end v1 < m_capacity v1 ∧
    (m_end v < m_capacity v → v1 = v) ∧
    m_capacity v1 =
      if decide (m_capacity v = 0) then 10
      else if decide (m_end v = m_capacity v) then 2 * m_capacity v
           else m_capacity v.
Proof.
  intros Hwf. pose proof Hwf as [Hle Hlen].
  destruct (decide (m_capacity v = 0)) as [H0|H0];
    [|destruct (decide (m_end v = m_capacity v)) as [Hf|Hf]].
  - destruct (reserve_moves_spec v 10 Hwf) as (v1 & E & Em).
    destruct (reserve_spec v 10 Hwf) as (v1' & E' & Hwf1 & He & Hl & Hc1).
    assert (v1' = v1) as -> by congruence.
    exists v1. rewrite Em, bool_decide_eq_true_2 by lia.
    rewrite bool_decide_eq_true_2 by lia.
    repeat split; try apply Hwf1; try done; lia.
  - destruct (reserve_moves_spec v (2 * m_capacity v) Hwf) as (v1 & E & Em).
    destruct (reserve_spec v (2 * m_capacity v) Hwf)
      as (v1' & E' & Hwf1 & He & Hl & Hc1).
    assert (v1' = v1) as -> by congruence.
    exists v1. rewrite Em, bool_decide_eq_true_2 by lia.
    rewrite bool_decide_eq_true_2 by lia.
    repeat split; try apply Hwf1; try done; lia.
  - exists v. rewrite bool_decide_eq_false_2 by done.
    repeat split; try done. lia.
Qed.

Lemma push_front_ref_grow v :
  wf v →
  ∃ v1,
    (if decide (m_capacity v = 0) then reserve_moves 10
     else let* f := full in
          if f then reserve_moves (2 * m_capacity v) else ret false) v
      = (Ok (bool_decide (m_end v = m_capacity v)), v1) ∧
    wf v1 ∧ m_end v1 = m_end v ∧ live v1 = live v ∧
    m_end v1 < m_capacity v1 ∧
    (m_end v < m_capacity v → v1 = v) ∧
    m_capacity v1 =
      if decide (m_capacity v = 0) then 10
      else if decide (m_end v = m_capacity v) then 2 * m_capacity v
           else m_capacity v.
Proof.
  intros Hwf.
  destruct (push_back_ref_grow v Hwf) as (v1 & E & H).
  exists v1. split; [|done]. rewrite <- E. clear E H.
  destruct (decide (m_capacity v = 0)); [done|].
  unfold full, bind, get_capacity, get_end, ret.
  destruct (decide (m_end v = m_capacity v)).
  - by rewrite bool_decide_eq_true_2.
  - by rewrite bool_decide_eq_false_2.
Qed.

Lemma insert_ref_grow v :
  wf v → m_capacity v ≠ 0 →
  ∃ v1,
    (if bool_decide (m_capacity v = m_end v)
     then let* cap := get_capacity in reserve_moves (cap * 2)
     else ret false) v
      = (Ok (bool_decide (m_end v = m_capacity v)), v1) ∧
    wf v1 ∧ m_end v1 = m_end v ∧ live v1 = live v ∧
    m_end v1 < m_capacity v1 ∧
    (m_end v < m_capacity v → v1 = v) ∧
    m_capacity v1 =
      if decide (m_capacity v = m_end v) then 2 * m_capacity v
      else m_capacity v.
Proof.
  intros Hwf H0.
  destruct (push_back_ref_grow v Hwf) as (v1 & E & Hwf1 & He & Hl & Hlt & Hv & Hc).
  rewrite decide_False in E by done. rewrite decide_False in Hc by done.
  exists v1. split.
  { rewrite <- E. unfold bind, get_capacity.
    destruct (decide (m_end v = m_capacity v)).
    - rewrite bool_decide_eq_true_2 by done. by rewrite Nat.mul_comm.
    - by rewrite bool_decide_eq_false_2. }
  repeat split; try apply Hwf1; try done.
  rewrite Hc. repeat case_decide; try done; lia.
Qed.


(** [push_front] up to the read of its argument: the buffer is grown if
    full, and the live elements have moved one slot to the right. *)
Lemma push_front_ref_run v :
  wf v →
  ∃ v1 s2,
    wf v1 ∧ m_end v1 = m_end v ∧ live v1 = live v ∧
    m_end v < m_capacity v1 ∧
    (m_end v < m_capacity v → v1 = v) ∧
    m_capacity v1 =
      (if decide (m_capacity v = 0) then 10
       else if decide (m_end v = m_capacity v) then 2 * m_capacity v
            else m_capacity v) ∧
    length s2 = m_capacity v1 ∧
    (∀ j : nat, s2 !! j =
       if decide (Z.of_nat 0 < Z.of_nat j ≤ Z.of_nat (m_end v))%Z
       then m_storage v1 !! (j - 1) else m_storage v1 !! j) ∧
    ∀ st : cref, push_front_ref st v =
      (let* x := read_cref st (bool_decide (m_end v = m_capacity v)) in
       do store 0 x then set_end (m_end v + 1))
      (mk_vector (m_end v) (m_capacity v1) s2).
Proof.
  intros Hwf.
  destruct (push_front_ref_grow v Hwf)
    as (v1 & E1 & Hwf1 & He1 & Hl1 & Hlt1 & Hv1 & Hc1).
  pose proof Hwf1 as [Hle1 Hlen1].
  destruct (shift_right v1 (Z.of_nat (m_end v1)) 0)
    as (s2 & E2 & Hlen2 & Hj2); [lia | lia |].
  exists v1, s2. repeat split; try apply Hwf1; try done; try lia.
  - intros j. rewrite Hj2, He1. repeat case_decide; try done; lia.
  - intros st. unfold push_front_ref. mstep. mstep_by E1. mstep. mstep_by E2.
    by rewrite He1.
Qed.

(** [insert] up to the read of its argument, on a container whose
    capacity is not 0: the buffer is grown if full, the size is one more,
    and the elements from [pos] on have moved one slot to the right. *)
Lemma insert_ref_run v (pos : iterator) :
  wf v → m_capacity v ≠ 0 → (0 ≤ pos ≤ Z.of_nat (m_end v))%Z →
  ∃ v1 s3,
    wf v1 ∧ m_end v1 = m_end v ∧ live v1 = live v ∧
    m_end v < m_capacity v1 ∧
    (m_end v < m_capacity v → v1 = v) ∧
    m_capacity v1 =
      (if decide (m_capacity v = m_end v) then 2 * m_capacity v
       else m_capacity v) ∧
    length s3 = m_capacity v1 ∧
    (∀ j : nat, s3 !! j =
       if decide (Z.of_nat (Z.to_nat pos) < Z.of_nat j ≤ Z.of_nat (m_end v))%Z
       then m_storage v1 !! (j - 1) else m_storage v1 !! j) ∧
    ∀ value_ : cref, insert_ref pos value_ v =
      (let* x := read_cref value_ (bool_decide (m_end v = m_capacity v)) in
       do store pos x then ret pos)
      (mk_vector (S (m_end v)) (m_capacity v1) s3).
Proof.
  intros Hwf Hc Hpos.
  destruct (insert_ref_grow v Hwf Hc)
    as (v1 & E1 & Hwf1 & He1 & Hl1 & Hlt1 & Hv1 & Hc1).
  pose proof Hwf1 as [Hle1 Hlen1].
  set (v2 := mk_vector (m_end v1 + 1) (m_capacity v1) (m_storage v1)).
  destruct (shift_right v2 (Z.of_nat (m_end v1 + 1) - 1) (0 + (pos - 0)))
    as (s3 & E3 & Hlen3 & Hj3); simpl; [lia | lia |].
  simpl in *.
  exists v1, s3. repeat split; try apply Hwf1; try done; try lia.
  - intros j. rewrite Hj3, He1. repeat case_decide; try done; lia.
  - intros value_.
    unfold insert_ref. mstep. mstep. rewrite decide_False by lia.
    mstep. mstep_by E1. mstep. mstep. mstep. mstep.
    mstep_by E3. rewrite He1.
    replace (m_end v + 1) with (S (m_end v)) by lia.
    by replace (0 + (pos - 0))%Z with pos by lia.
Qed.

(** A reference to a live element, on a container with room: the
    modifier is the one of a value, the value being what the slot holds
    when the source reads it, after the elements have moved. *)
Lemma push_back_ref_slot v (i : nat) y :
  m_end v < m_capacity v → live v !! i = Some y →
  push_back_ref (Slot (Z.of_nat i)) v = push_back y v.
Proof.
  intros Hlt Hy. apply deref_live in Hy.
  unfold push_back_ref, push_back, read_cref, load.
  unfold bind, get_capacity, get_end, ret. simpl.
  rewrite !decide_False by lia. simpl. by rewrite Hy.
Qed.

Lemma push_front_ref_slot v (i : nat) y :
  wf v → m_end v < m_capacity v → i < m_end v →
  live v !! (i - 1) = Some y →
  push_front_ref (Slot (Z.of_nat i)) v = push_front y v.
Proof.
  intros Hwf Hlt Hi Hy.
  destruct (push_front_ref_run v Hwf)
    as (v1 & s2 & _ & _ & _ & _ & Hv1 & _ & _ & Hj2 & E).
  rewrite <- push_front_ref_outside, !E.
  rewrite bool_decide_eq_false_2 by lia.
  assert (s2 !! i = Some y) as Hs.
  { rewrite Hj2, Hv1 by done. rewrite wf_live_lookup in Hy by lia.
    destruct (decide _) as [?|?]; [done|]. destruct i; [done | lia]. }
  mstep_by (read_slot (mk_vector (m_end v) (m_capacity v1) s2) _ _
              (deref_nat _ _ _ Hs)).
  reflexivity.
Qed.

Lemma insert_ref_slot v (pos : iterator) (i : nat) y :
  wf v → m_end v < m_capacity v → (0 ≤ pos ≤ Z.of_nat (m_end v))%Z →
  i < m_end v →
  live v !! (if decide (pos < Z.of_nat i)%Z then i - 1 else i) = Some y →
  insert_ref pos (Slot (Z.of_nat i)) v = insert pos y v.
Proof.
  intros Hwf Hlt Hpos Hi Hy.
  destruct (insert_ref_run v pos Hwf)
    as (v1 & s3 & _ & _ & _ & _ & Hv1 & _ & _ & Hj3 & E); [lia | done |].
  rewrite <- insert_ref_outside, !E.
  rewrite bool_decide_eq_false_2 by lia.
  assert (s3 !! i = Some y) as Hs.
  { rewrite Hj3, Hv1 by done.
    destruct (decide (pos < Z.of_nat i)%Z) as [?|?].
    - rewrite decide_True by lia. by rewrite <- wf_live_lookup by lia.
    - rewrite decide_False by lia. by rewrite <- wf_live_lookup by lia. }
  mstep_by (read_slot (mk_vector (S (m_end v)) (m_capacity v1) s3) _ _
              (deref_nat _ _ _ Hs)).
  reflexivity.
Qed.

(** A reference into the buffer of a full container: [reserve] frees that
    buffer before the source reads the argument. *)
Lemma push_back_ref_freed v (i : Z) :
  wf v → m_end v = m_capacity v →
  ∃ v', push_back_ref (Slot i) v = (Fault i, v') ∧ wf v' ∧
    live v' = live v ∧ m_end v' = m_end v ∧
    m_capacity v' = if decide (m_capacity v = 0) then 10 else 2 * m_capacity v.
Proof.
  intros Hwf Hf.
  destruct (push_back_ref_grow v Hwf)
    as (v1 & E1 & Hwf1 & He1 & Hl1 & _ & _ & Hc1).
  rewrite bool_decide_eq_true_2 in E1 by done.
  exists v1. split.
  { unfold push_back_ref. mstep. mstep. mstep_by E1. mstep.
    by apply bind_Fault. }
  repeat split; try apply Hwf1; try done.
  rewrite Hc1. by repeat case_decide.
Qed.

Lemma push_front_ref_freed v (i : Z) :
  wf v → m_end v = m_capacity v →
  ∃ v', push_front_ref (Slot i) v = (Fault i, v') ∧ wf v' ∧
    m_end v' = m_end v ∧
    (m_capacity v' = if decide (m_capacity v = 0) then 10 else 2 * m_capacity v) ∧
    ∀ j : nat, j < m_end v → m_storage v' !! S j = live v !! j.
Proof.
  intros Hwf Hf.
  destruct (push_front_ref_run v Hwf)
    as (v1 & s2 & Hwf1 & He1 & Hl1 & Hlt1 & _ & Hc1 & Hlen2 & Hj2 & E).
  eexists. split.
  { rewrite E, bool_decide_eq_true_2 by done. by apply bind_Fault. }
  split; [split; simpl; [lia | done]|]. simpl. split; [done|]. split.
  - rewrite Hc1. destruct (decide (m_capacity v = 0)); [done|].
    by rewrite decide_True.
  - intros j Hj. rewrite Hj2, decide_True by lia. simpl.
    rewrite Nat.sub_0_r, <- Hl1. symmetry. apply wf_live_lookup. lia.
Qed.

Lemma insert_ref_freed v (pos : iterator) (i : Z) :
  wf v → m_capacity v ≠ 0 → (0 ≤ pos ≤ Z.of_nat (m_end v))%Z →
  m_end v = m_capacity v →
  ∃ v', insert_ref pos (Slot i) v = (Fault i, v') ∧ wf v' ∧
    m_end v' = S (m_end v) ∧ m_capacity v' = 2 * m_capacity v.
Proof.
  intros Hwf H0 Hpos Hf.
  destruct (insert_ref_run v pos Hwf H0 Hpos)
    as (v1 & s3 & Hwf1 & He1 & Hl1 & Hlt1 & _ & Hc1 & Hlen3 & Hj3 & E).
  eexists. split.
  { rewrite E, bool_decide_eq_true_2 by done. by apply bind_Fault. }
  split; [split; simpl; [lia | done]|]. simpl. split; [done|].
  rewrite Hc1. by rewrite decide_True.
Qed.

(** X4: [push_back(st)] takes its argument by reference and reads it
    after the growth step.  For a value outside the container it never
    fails: the value becomes the last live element, read back by
    [back()] and by [at(old size)], and the capacity goes from 0 to 10,
    from a full [c > 0] to [2c] and otherwise stays.  For a reference to
    the live element [i] of a container with room, a copy of that element
    is appended.  For a reference to a slot of a full container the
    buffer is freed by [reserve] before the read: the call stops there,
    with the elements moved to the larger buffer and the size unchanged. *)
Theorem push_back_appends v :
  wf v →
  (∀ x, ∃ v',
     push_back_ref (Outside x) v = (Ok tt, v') ∧ wf v' ∧
     live v' = live v ++ [x] ∧ size v' = S (size v) ∧
     back v' = Ok x ∧ at_ (size v) v' = Ok x ∧
     capacity v' =
       if decide (capacity v = 0) then 10
       else if decide (size v = capacity v) then 2 * capacity v
            else capacity v) ∧
  (∀ (i : nat) y, size v < capacity v → live v !! i = Some y →
     ∃ v',
       push_back_ref (Slot (Z.of_nat i)) v = (Ok tt, v') ∧ wf v' ∧
       live v' = live v ++ [y] ∧ size v' = S (size v) ∧
       back v' = Ok y ∧ capacity v' = capacity v) ∧
  (∀ i : Z, size v = capacity v →
     ∃ v',
       push_back_ref (Slot i) v = (Fault i, v') ∧ wf v' ∧
       live v' = live v ∧ size v' = size v ∧
       capacity v' =
         if decide (capacity v = 0) then 10 else 2 * capacity v).
Proof.
  unfold size, capacity. intros Hwf. split; [|split].
  - intros x. rewrite push_back_ref_outside. by apply push_back_value.
  - intros i y Hlt Hy. rewrite (push_back_ref_slot v i y Hlt Hy).
    destruct (push_back_value v y Hwf)
      as (v' & E & Hwf' & Hl & He & Hb & _ & Hc).
    unfold size, capacity in *.
    rewrite decide_False in Hc by lia. rewrite decide_False in Hc by lia.
    by exists v'.
  - intros i Hf. by apply push_back_ref_freed.
Qed.

(** X6: [push_front(st)] takes its argument by reference and reads it
    after the growth step and after the elements have moved one slot to
    the right.  For a value outside the container it never fails: the
    value becomes the first live element, read back by [front()], the
    old elements follow it in order, and the capacity grows as for
    [push_back].  For a reference to the live element [i] of a container
    with room, the value prepended is the one that slot [i] holds after
    the move: the old element [i - 1], or the old element 0 for
    [i = 0].  For a reference to a slot of a full container the buffer is
    freed by [reserve] before the read: the call stops there, with the
    old elements moved to slots 1 and up of the larger buffer and the
    size unchanged. *)
Theorem push_front_prepends v :
  wf v →
  (∀ x, ∃ v',
     push_front_ref (Outside x) v = (Ok tt, v') ∧ wf v' ∧
     live v' = x :: live v ∧ size v' = S (size v) ∧
     front v' = Ok x ∧
     capacity v' =
       if decide (capacity v = 0) then 10
       else if decide (size v = capacity v) then 2 * capacity v
            else capacity v) ∧
  (∀ (i : nat) y, size v < capacity v → i < size v →
     live v !! (i - 1) = Some y →
     ∃ v',
       push_front_ref (Slot (Z.of_nat i)) v = (Ok tt, v') ∧ wf v' ∧
       live v' = y :: live v ∧ size v' = S (size v) ∧
       front v' = Ok y ∧ capacity v' = capacity v) ∧
  (∀ i : Z, size v = capacity v →
     ∃ v',
       push_front_ref (Slot i) v = (Fault i, v') ∧ wf v' ∧
       size v' = size v ∧
       (capacity v' =
          if decide (capacity v = 0) then 10 else 2 * capacity v) ∧
       ∀ j : nat, j < size v → m_storage v' !! S j = live v !! j).
Proof.
  unfold size, capacity. intros Hwf. split; [|split].
  - intros x. rewrite push_front_ref_outside. by apply push_front_value.
  - intros i y Hlt Hi Hy. rewrite (push_front_ref_slot v i y Hwf Hlt Hi Hy).
    destruct (push_front_value v y Hwf)
      as (v' & E & Hwf' & Hl & He & Hb & Hc).
    unfold size, capacity in *.
    rewrite decide_False in Hc by lia. rewrite decide_False in Hc by lia.
    by exists v'.
  - intros i Hf. by apply push_front_ref_freed.
Qed.

(** X9: [insert(pos, value)] takes its value by reference and reads it
    after the growth step and after the elements from [pos] on have moved
    one slot to the right.  On a container whose capacity is not 0, with
    [pos] in [begin(), end()]: for a value outside the container the
    call succeeds, the size grows by one, the value sits at [pos]
    between the elements that were before and from [pos], the iterator
    returned is [pos] and points to it, and a full container doubles its
    capacity while any other keeps it.  For a reference to the live
    element [i] of a container with room, the value placed is the one
    that slot [i] holds after the move: the old element [i - 1] when
    [pos < i], the old element [i] otherwise.  For a reference to a slot
    of a full container the buffer is freed by [reserve] before the read:
    the call stops there, with the size already one more and the capacity
    doubled. *)
Theorem insert_places_value v (pos : iterator) :
  wf v → capacity v ≠ 0 → (0 ≤ pos ≤ Z.of_nat (size v))%Z →
  (∀ x, ∃ v',
     insert_ref pos (Outside x) v = (Ok pos, v') ∧ wf v' ∧
     size v' = S (size v) ∧
     live v' = take (Z.to_nat pos) (live v) ++ x :: drop (Z.to_nat pos) (live v) ∧
     deref (m_storage v') pos = Ok x ∧
     capacity v' =
       if decide (capacity v = size v) then 2 * capacity v else capacity v) ∧
  (∀ (i : nat) y, size v < capacity v → i < size v →
     live v !! (if decide (pos < Z.of_nat i)%Z then i - 1 else i) = Some y →
     ∃ v',
       insert_ref pos (Slot (Z.of_nat i)) v = (Ok pos, v') ∧ wf v' ∧
       size v' = S (size v) ∧
       live v' = take (Z.to_nat pos) (live v) ++ y :: drop (Z.to_nat pos) (live v) ∧
       deref (m_storage v') pos = Ok y ∧
       capacity v' = capacity v) ∧
  (∀ i : Z, size v = capacity v →
     ∃ v',
       insert_ref pos (Slot i) v = (Fault i, v') ∧ wf v' ∧
       size v' = S (size v) ∧ capacity v' = 2 * capacity v).
Proof.
  unfold size, capacity. intros Hwf H0 Hpos. split; [|split].
  - intros x. rewrite insert_ref_outside. by apply insert_value.
  - intros i y Hlt Hi Hy.
    rewrite (insert_ref_slot v pos i y Hwf Hlt Hpos Hi Hy).
    destruct (insert_value v pos y Hwf H0 Hpos)
      as (v' & E & Hwf' & He & Hl & Hd & Hc).
    unfold size, capacity in *.
    rewrite decide_False in Hc by lia.
    by exists v'.
  - intros i Hf. by apply insert_ref_freed.
Qed.

(** ** insert followed by erase *)




(** ** Equality as a relation *)

(** X18: on containers, [operator==] always returns a value, [true] or
    [false], and is reflexive, symmetric and transitive. *)
Theorem vec_eq_equivalence (a b c : vector T) :
  wf a → wf b → wf c →
  (∃ r : bool, vec_eq a b = Ok r) ∧
  vec_eq a a = Ok true ∧
  vec_eq a b = vec_eq b a ∧
  (vec_eq a b = Ok true → vec_eq b c = Ok true → vec_eq a c = Ok true).
Proof.
  intros Ha Hb Hc. rewrite !vec_eq_live by done. repeat split.
  - by eexists.
  - by rewrite bool_decide_eq_true_2.
  - f_equal. apply bool_decide_ext. split; by intros ->.
  - intros [= E1%bool_decide_eq_true] [= E2%bool_decide_eq_true].
    rewrite bool_decide_eq_true_2; [done | congruence].
Qed.

(** ** reserve and the allocator *)

(** With the array granted, [reserve] is the function that takes the
    allocation for done. *)
Lemma reserve_alloc_granted (grants : N → bool) v (alocar : N) :
  grants alocar = true →
  reserve_alloc grants alocar v = reserve (N.to_nat alocar) v.
Proof.
  intros Hg. unfold reserve_alloc, reserve, new_T.
  unfold bind, get_capacity. simpl.
  destruct (decide (alocar ≤ N.of_nat (m_capacity v))%N).
  - by rewrite decide_True by lia.
  - rewrite decide_False by lia. by rewrite Hg.
Qed.

(** X1: [reserve(n)] with [n] at most the capacity returns at once and
    changes nothing.  With a larger [n] it asks [new] for an array of
    [n] elements: when the array is granted the call succeeds, the live
    elements and the size stay and the capacity becomes [n]; when it is
    refused the exception of [new] leaves [reserve] before any member
    has changed. *)
Theorem reserve_keeps_elements (grants : N → bool) v (n : N) :
  wf v →
  if decide (n ≤ N.of_nat (capacity v))%N then
    reserve_alloc grants n v = (Ok tt, v)
  else if grants n then
    ∃ v', reserve_alloc grants n v = (Ok tt, v') ∧ wf v' ∧
      live v' = live v ∧ size v' = size v ∧ capacity v' = N.to_nat n
  else reserve_alloc grants n v = (Throw bad_alloc, v).
Proof.
  unfold size, capacity. intros Hwf.
  destruct (decide (n ≤ N.of_nat (m_capacity v))%N) as [Hn|Hn].
  - unfold reserve_alloc, bind, get_capacity. simpl.
    by rewrite decide_True.
  - destruct (grants n) eqn:Hg.
    + rewrite reserve_alloc_granted by done.
      destruct (reserve_spec v (N.to_nat n) Hwf)
        as (v' & E & Hwf' & He & Hl & Hc).
      exists v'. repeat split; try done; try apply Hwf'. lia.
    + unfold reserve_alloc, new_T, bind, get_capacity, throw. simpl.
      rewrite decide_False by done. by rewrite Hg.
Qed.

(** ** assign and its 32-bit counter *)

(** A loop on an [unsigned] counter below a bound that fits in 32 bits
    ends after [n] rounds, given the fuel for them. *)
Lemma loop_u32_from (I : nat → vector T → Prop) (n : nat) (body : Z → M T unit) :
  (Z.of_nat n < 2 ^ 32)%Z →
  (∀ k v, k < n → I k v →
     ∃ v', body (Z.of_nat k) v = (Ok tt, v') ∧ I (S k) v') →
  ∀ (m k fuel : nat) v,
    k + m = n → m < fuel → I k v →
    ∃ v', loop_u32 fuel (Z.of_nat k) (Z.of_nat n) body v = (Ok (Some tt), v') ∧
      I n v'.
Proof.
  intros Hn Hbody m. induction m as [|m IH]; intros k fuel v Hk Hf HI.
  - destruct fuel as [|fuel]; [lia|]. simpl.
    rewrite decide_False by lia. exists v. split; [done|].
    by replace n with k by lia.
  - destruct fuel as [|fuel]; [lia|]. simpl.
    rewrite decide_True by lia.
    destruct (Hbody k v) as (v' & E & HI'); [lia | done |].
    destruct (IH (S k) fuel v') as (v'' & E' & HI''); [lia | lia | done |].
    exists v''. split; [|done]. mstep_by E.
    rewrite Z.mod_small by lia.
    by replace (Z.of_nat k + 1)%Z with (Z.of_nat (S k)) by lia.
Qed.

Lemma loop_u32_inv (I : nat → vector T → Prop) (n fuel : nat)
    (body : Z → M T unit) v :
  (Z.of_nat n < 2 ^ 32)%Z → n < fuel → I 0 v →
  (∀ k v, k < n → I k v →
     ∃ v', body (Z.of_nat k) v = (Ok tt, v') ∧ I (S k) v') →
  ∃ v', loop_u32 fuel 0 (Z.of_nat n) body v = (Ok (Some tt), v') ∧ I n v'.
Proof.
  intros Hn Hf HI Hbody.
  by apply (loop_u32_from I n body Hn Hbody n 0 fuel v).
Qed.

(** A loop on an [unsigned] counter below a bound of 2^32 or more never
    ends: the counter wraps to 0 before it reaches the bound, and no
    amount of fuel is enough. *)
Lemma loop_u32_never (P : vector T → Prop) (hi : Z) (body : Z → M T unit) :
  (2 ^ 32 ≤ hi)%Z →
  (∀ i v, (0 ≤ i < 2 ^ 32)%Z → P v → ∃ v', body i v = (Ok tt, v') ∧ P v') →
  ∀ (fuel : nat) (i : Z) v,
    (0 ≤ i < 2 ^ 32)%Z → P v →
    ∃ v', loop_u32 fuel i hi body v = (Ok None, v') ∧ P v'.
Proof.
  intros Hhi Hbody fuel. induction fuel as [|fuel IH]; intros i v Hi HP.
  - by exists v.
  - simpl. rewrite decide_True by lia.
    destruct (Hbody i v Hi HP) as (v' & E & HP').
    destruct (IH ((i + 1) mod 2 ^ 32)%Z v') as (v'' & E' & HP''); [|done|].
    { apply Z.mod_pos_bound. lia. }
    exists v''. split; [|done]. by mstep_by E.
Qed.

(** The slots filled so far do not change what the argument reads: a
    value outside the container, or a slot of the buffer that held [x]
    when the loop began. *)
Lemma read_while_filling (value_ : cref) x (k : nat) (e c : nat) buf :
  match value_ with
  | Outside y => y = x
  | Slot i => deref buf i = Ok x
  end →
  read_cref value_ false (mk_vector e c (replicate k x ++ drop k buf))
    = (Ok x, mk_vector e c (replicate k x ++ drop k buf)).
Proof.
  destruct value_ as [y|i]; [by intros ->|].
  intros [Hi Hx]%deref_Ok. apply read_slot. simpl. apply deref_Ok.
  split; [done|].
  destruct (decide (Z.to_nat i < k)) as [Hlt|Hge].
  - rewrite lookup_app_l by (by rewrite length_replicate).
    pose proof (lookup_lt_Some _ _ _ Hx) as Hlen.
    apply lookup_replicate_2. done.
  - rewrite lookup_app_r by (rewrite length_replicate; lia).
    rewrite length_replicate, lookup_drop. rewrite <- Hx. f_equal. lia.
Qed.

(** [for (auto i{0u}; i < count; i++) m_storage[i] = value_;] with
    [count] below 2^32. *)
Lemma fill_loop_u32 v (fuel count : nat) (value_ : cref) x :
  count ≤ length (m_storage v) → (Z.of_nat count < 2 ^ 32)%Z → count < fuel →
  match value_ with
  | Outside y => y = x
  | Slot i => deref (m_storage v) i = Ok x
  end →
  loop_u32 fuel 0 (Z.of_nat count)
    (λ i, let* y := read_cref value_ false in store i y) v =
    (Ok (Some tt), mk_vector (m_end v) (m_capacity v)
                     (replicate count x ++ drop count (m_storage v))).
Proof.
  intros Hc Hn Hf Hv.
  destruct (loop_u32_inv
    (λ k v', v' = mk_vector (m_end v) (m_capacity v)
                    (replicate k x ++ drop k (m_storage v)))
    count fuel (λ i, let* y := read_cref value_ false in store i y) v)
    as (v' & E & ->); try done.
  - simpl. rewrite drop_0. by destruct v.
  - intros k ? Hk ->. eexists. split; [|reflexivity].
    mstep_by (read_while_filling value_ x k (m_end v) (m_capacity v)
                (m_storage v) Hv).
    rewrite store_in_bounds; simpl.
    + by rewrite fill_step by lia.
    + rewrite length_app, length_replicate, length_drop. lia.
Qed.


(** For a count below 2^32, a value outside the container and the array
    granted, [assign] as a caller calls it is the function of a count and
    a value. *)
Lemma assign_ref_outside (grants : N → bool) (fuel : nat) v (count : nat) x :
  wf v → (Z.of_nat count < 2 ^ 32)%Z → count < fuel →
  (m_end v < count → grants (N.of_nat count) = true) →
  ∃ v', assign count x v = (Ok tt, v') ∧
    assign_ref grants fuel (N.of_nat count) (Outside x) v = (Ok (Some tt), v').
Proof.
  intros [Hle Hlen] Hc Hf Hg.
  destruct (decide (count ≤ m_end v)) as [Hs|Hs].
  - eexists. split.
    + unfold assign. mstep. rewrite decide_True by lia. mstep.
      apply fill_loop. simpl. lia.
    + unfold assign_ref. mstep. rewrite decide_True by lia.
      rewrite <- N_nat_Z, Nat2N.id. mstep.
      apply (fill_loop_u32 _ fuel _ (Outside x) x); simpl; try done; lia.
  - eexists. split.
    + unfold assign. mstep. rewrite decide_False by lia.
      mstep. mstep. mstep.
      apply fill_loop. simpl. unfold new_array. by rewrite length_replicate.
    + unfold assign_ref. mstep. rewrite decide_False by lia.
      unfold new_T. rewrite Hg by lia.
      rewrite <- N_nat_Z, Nat2N.id. mstep. mstep. mstep. mstep.
      apply (fill_loop_u32 _ fuel _ (Outside x) x); simpl; try done.
      unfold new_array. by rewrite length_replicate.
Qed.


(** X23: [assign(count, value)] with a count of 2^32 or more, once the
    buffer of [count] slots is granted: the 32-bit counter of its loop wraps to 0 before it reaches
    [count], so the loop keeps writing [value] to the slots below 2^32
    and the call does not return, whatever the fuel. *)
Theorem assign_counter_wraps (grants : N → bool) v (count : N) x :
  wf v → (2 ^ 32 ≤ count)%N →
  (N.of_nat (size v) < count)%N → grants count = true →
  ∀ fuel : nat, ∃ v',
    assign_ref grants fuel count (Outside x) v = (Ok None, v') ∧
    size v' = N.to_nat count.
Proof.
  unfold size. intros [Hle Hlen] Hc Hs Hg fuel.
  set (v0 := mk_vector (N.to_nat count) (N.to_nat count)
               (new_array (N.to_nat count)) : vector T).
  destruct (loop_u32_never
    (λ v', m_end v' = N.to_nat count ∧
           (2 ^ 32 ≤ Z.of_nat (length (m_storage v')))%Z)
    (Z.of_N count) (λ i, let* y := read_cref (Outside x) true in store i y))
    with (fuel := fuel) (i := 0%Z) (v := v0) as (v' & E & He & _).
  - lia.
  - intros i w Hi [Hew Hlw]. eexists. split.
    + mstep. unfold store. rewrite decide_True by lia. reflexivity.
    + simpl. rewrite length_insert. done.
  - lia.
  - unfold v0, new_array. simpl. rewrite length_replicate. lia.
  - exists v'. split; [|done].
    unfold assign_ref. mstep. rewrite decide_False by lia.
    unfold new_T. rewrite Hg. mstep. mstep. mstep. mstep. exact E.
Qed.

(** X24: [assign(count, value)] with [count > size] and [value] a
    reference to a slot of the container: the buffer is freed before the
    loop reads the reference, so the first round has nothing to read; the
    call stops there, with size and capacity already [count] and none of
    the new slots written. *)
Theorem assign_reads_freed_buffer (grants : N → bool) (fuel : nat) v
    (count : N) (i : Z) :
  (N.of_nat (size v) < count)%N → grants count = true → 0 < fuel →
  assign_ref grants fuel count (Slot i) v =
    (Fault i, mk_vector (N.to_nat count) (N.to_nat count)
                (new_array (N.to_nat count))).
Proof.
  unfold size. intros Hs Hg Hf.
  unfold assign_ref. mstep. rewrite decide_False by lia.
  unfold new_T. rewrite Hg. mstep. mstep. mstep. mstep.
  destruct fuel as [|fuel]; [lia|]. simpl.
  rewrite decide_True by lia. by apply bind_Fault.
Qed.

End proofs.

(** ** Where the code departs from its description *)

(** C1, where the code departs from it: the single-element [insert] on a
    default-constructed container leaves size 1 with capacity 0, after
    which it writes slot 0 of a buffer without slots; and the
    initializer-list [insert] of eight elements into a container of size 3
    and capacity 10, which is not full, leaves size 11 with capacity 10
    and writes slot 10. *)
Theorem insert_size_above_capacity :
  wf v_empty ∧
  insert 0 7%Z v_empty = (Fault 0, mk_vector 1 0 []) ∧
  wf v_pushed ∧ size v_pushed = 3 ∧ capacity v_pushed = 10 ∧
  (insert_list 0 [4; 5; 6; 7; 8; 9; 10; 11]%Z v_pushed).1 = Fault 10 ∧
  size (state_after (insert_list 0 [4; 5; 6; 7; 8; 9; 10; 11]%Z) v_pushed) = 11 ∧
  capacity (state_after (insert_list 0 [4; 5; 6; 7; 8; 9; 10; 11]%Z) v_pushed) = 10.
Proof. vm_compute. repeat split; lia. Qed.

(** C2, where the code departs from it: on a default-constructed
    container [push_back] and [push_front] bring the capacity from 0 to 10,
    and the single-element [insert] leaves it at 0. *)
Theorem insert_no_growth_from_zero :
  capacity v_empty = 0 ∧
  capacity (state_after (push_back 7%Z) v_empty) = 10 ∧
  capacity (state_after (push_front 7%Z) v_empty) = 10 ∧
  capacity (state_after (insert 0 7%Z) v_empty) = 0.
Proof. vm_compute. done. Qed.

(** C10, where the code departs from it: on the full container {1, 2, 3}
    the last round of the loop of [pop_front] reads slot 3 of a buffer of
    3 slots. *)
Theorem pop_front_reads_past_buffer :
  wf v_123 ∧ size v_123 = 3 ∧ capacity v_123 = 3 ∧
  pop_front v_123 = (Fault 3, mk_vector 3 3 [2; 3; 3]%Z).
Proof. vm_compute. repeat split; lia. Qed.

(** C9, as first stated, fails on [assign]: on a container of size 3 and
    capacity 10, [assign(5, 7)] is neither [shrink_to_fit] nor a
    copy-assignment and leaves the capacity at 5. *)
Lemma capacity_lowered_by_assign :
  wf v_pushed ∧ shrink_or_reassign (Assign 5 7%Z) = false ∧
  capacity v_pushed = 10 ∧
  capacity (run_op (Assign 5 7%Z) v_pushed) = 5 ∧
  ¬ (∀ (op : operation Z) (v : vector Z),
       wf v → shrink_or_reassign op = false →
       capacity v ≤ capacity (run_op op v)).
Proof.
  assert (wf v_pushed) as Hwf by (vm_compute; lia).
  repeat split; try apply Hwf; try done.
  intros Hall. specialize (Hall (Assign 5 7%Z) v_pushed Hwf eq_refl).
  vm_compute in Hall. lia.
Qed.

(** ** Instances on concrete containers *)

(** Iterators on the first and the last slot of {5, 7, 5}. *)
Lemma iterator_equality_by_value_witness :
  wf v_575 ∧ it_eq (m_storage v_575) 0 2 = Ok true ∧
  it_ne (m_storage v_575) 0 2 = Ok false.
Proof.
  assert (wf v_575) as Hwf by (vm_compute; lia).
  destruct (iterator_equality_by_value v_575 0 2 Hwf)
    as (x & y & Hx & Hy & Heq & Hne & _); [simpl; lia | simpl; lia |].
  assert (x = y) as Hxy.
  { vm_compute in Hx, Hy. congruence. }
  rewrite Heq, Hne. rewrite (bool_decide_eq_true_2 _ Hxy). done.
Defined.

(** Positions outside {1, 2, 3}. *)
Lemma out_of_range_before_any_change_witness :
  insert 4 9%Z v_123 = (Throw out_of_range, v_123) ∧
  insert_range (-1) [9%Z] v_123 = (Throw out_of_range, v_123) ∧
  insert_list 4 [9%Z] v_123 = (Throw out_of_range, v_123) ∧
  erase 3 v_123 = (Throw out_of_range, v_123) ∧
  erase_range 2 1 v_123 = (Throw out_of_range, v_123).
Proof.
  destruct (out_of_range_before_any_change v_123) as (H1 & H2 & H3 & H4 & H5).
  split; [apply H1; simpl; lia|]. split; [apply H2; simpl; lia|].
  split; [apply H3; simpl; lia|]. split; [apply H4; simpl; lia|].
  apply H5; simpl; lia.
Defined.

(** [at(3)], [front()] and [back()] on {1, 2, 3}. *)
Lemma checked_access_boundary_witness :
  wf v_123 ∧
  at_ 3 v_123 = Throw out_of_range ∧
  (∃ x, head (live v_123) = Some x ∧ front v_123 = Ok x) ∧
  (∃ x, last (live v_123) = Some x ∧ back v_123 = Ok x).
Proof.
  assert (wf v_123) as Hwf by (vm_compute; lia).
  destruct (checked_access_boundary v_123 3 Hwf)
    as (Hat & _ & _ & Hfront & _ & Hback).
  split; [done|]. split; [apply Hat; simpl; lia|].
  split; [apply Hfront; by simpl | apply Hback; by simpl].
Defined.

(** {1, 2, 3} with capacity 10 against {1, 2, 3} with capacity 3. *)
Lemma container_equality_witness :
  wf v_pushed ∧ wf v_123 ∧ capacity v_pushed ≠ capacity v_123 ∧
  vec_eq v_pushed v_123 = Ok (bool_decide (live v_pushed = live v_123)).
Proof.
  assert (wf v_pushed) as Ha by (vm_compute; lia).
  assert (wf v_123) as Hb by (vm_compute; lia).
  split; [done|]. split; [done|]. split; [vm_compute; lia|].
  apply (container_equality v_pushed v_123 Ha Hb).
Defined.

(** [assign(2, 7)] on a container of size 3 keeps its capacity of 10. *)
Lemma capacity_monotone_witness :
  may_shrink (Assign 2 7%Z) v_pushed = false ∧
  capacity v_pushed ≤ capacity (run_op (Assign 2 7%Z) v_pushed).
Proof.
  split; [reflexivity|].
  apply (capacity_monotone (Assign 2 7%Z) v_pushed). reflexivity.
Defined.

(** ** Further instances on concrete containers *)

Lemma wf_v_123 : wf v_123.
Proof. vm_compute. lia. Defined.

Lemma wf_v_pushed : wf v_pushed.
Proof. vm_compute. lia. Defined.

(** [shrink_to_fit()] on a container of size 3 and capacity 10. *)
Lemma shrink_to_fit_exact_witness :
  ∃ v', shrink_to_fit v_pushed = (Ok tt, v') ∧ live v' = live v_pushed ∧
    capacity v' = size v_pushed.
Proof.
  destruct (shrink_to_fit_exact v_pushed wf_v_pushed)
    as (v' & E & _ & Hl & _ & Hc).
  by exists v'.
Defined.

(** [clear()] on {1, 2, 3}. *)
Lemma clear_empties_witness :
  ∃ v', clear v_123 = (Ok tt, v') ∧ size v' = 0 ∧
    capacity v' = capacity v_123.
Proof.
  destruct (clear_empties v_123 wf_v_123) as (v' & E & _ & Hs & _ & Hc & _).
  by exists v'.
Defined.

(** [push_back(4)] then [pop_back()] on {1, 2, 3}. *)
Lemma push_back_pop_back_witness :
  ∃ v1 v2, push_back 4%Z v_123 = (Ok tt, v1) ∧ pop_back v1 = (Ok tt, v2) ∧
    live v2 = live v_123 ∧ size v2 = size v_123.
Proof. exact (push_back_pop_back v_123 4%Z wf_v_123). Defined.

(** [pop_back()] on {1, 2, 3}. *)
Lemma pop_back_drops_last_witness :
  ∃ v', pop_back v_123 = (Ok tt, v') ∧
    live v' = take (size v_123 - 1) (live v_123).
Proof.
  destruct (pop_back_drops_last v_123 wf_v_123) as (v' & E & _ & _ & Hl & _).
  by exists v'.
Defined.

(** [pop_front()] on a container of size 3 and capacity 10. *)
Lemma pop_front_with_room_witness :
  ∃ v', pop_front v_pushed = (Ok tt, v') ∧ live v' = drop 1 (live v_pushed).
Proof.
  destruct (pop_front_with_room v_pushed wf_v_pushed)
    as (v' & E & _ & Hl & _); [right; vm_compute; lia|].
  by exists v'.
Defined.

(** [erase(begin() + 1)] on {1, 2, 3}. *)
Lemma erase_closes_gap_witness :
  ∃ v', erase 1 v_123 = (Ok 1%Z, v') ∧ size v' = size v_123 - 1.
Proof.
  destruct (erase_closes_gap v_123 1 wf_v_123)
    as (v' & E & _ & Hs & _); [simpl; lia|].
  by exists v'.
Defined.

(** [erase(begin(), begin() + 2)] on {1, 2, 3}. *)
Lemma erase_range_closes_gap_witness :
  ∃ v', erase_range 0 2 v_123 = (Ok 0%Z, v') ∧
    live v' = take 0 (live v_123) ++ drop 2 (live v_123).
Proof.
  destruct (erase_range_closes_gap v_123 0 2 wf_v_123)
    as (v' & E & _ & _ & Hl & _); [lia | simpl; lia|].
  by exists v'.
Defined.

(** [insert(begin() + 1, 9)] then [erase] on {1, 2, 3}. *)
Lemma insert_erase_round_trip_witness :
  ∃ v1 it v2,
    insert 1 9%Z v_123 = (Ok it, v1) ∧ erase it v1 = (Ok it, v2) ∧
    live v2 = live v_123 ∧ size v2 = size v_123.
Proof.
  apply (insert_erase_round_trip v_123 1 9%Z wf_v_123);
    [vm_compute; lia | simpl; lia].
Defined.

(** A copy of a container of size 3 and capacity 10. *)
Lemma copy_constructor_equal_witness :
  ∃ v', vector_copy v_pushed = (Ok tt, v') ∧ vec_eq v' v_pushed = Ok true.
Proof.
  destruct (copy_constructor_equal v_pushed wf_v_pushed)
    as (v' & E & _ & _ & _ & _ & He).
  by exists v'.
Defined.

(** A container built from the range of one of size 3 and capacity 10. *)
Lemma range_round_trip_witness :
  ∃ v', vector_of_range (live v_pushed) = (Ok tt, v') ∧
    vec_eq v' v_pushed = Ok true.
Proof.
  destruct (range_round_trip v_pushed wf_v_pushed) as (v' & E & _ & He & _).
  by exists v'.
Defined.

(** {1, 2, 3} assigned to a container of capacity 10. *)
Lemma copy_assign_equal_witness :
  ∃ v', copy_assign v_123 v_pushed = (Ok tt, v') ∧
    live v' = live v_123 ∧ vec_eq v' v_123 = Ok true.
Proof.
  destruct (copy_assign_equal v_123 v_pushed wf_v_pushed wf_v_123)
    as (v' & E & _ & Hl & _ & He & _).
  by exists v'.
Defined.

(** [assign({7, 8})] on {1, 2, 3}. *)
Lemma assign_elements_witness :
  ∃ v', assign_list [7; 8]%Z v_123 = (Ok tt, v') ∧ live v' = [7; 8]%Z.
Proof.
  destruct (assign_elements [7; 8]%Z v_123 wf_v_123)
    as ((v' & E & _ & Hl & _) & _).
  by exists v'.
Defined.

(** [push_back(4)] on {1, 2, 3}. *)
Lemma invariant_kept_exactly_witness :
  wf (run_op (PushBack 4%Z) v_123).
Proof.
  apply (invariant_kept_exactly (PushBack 4%Z) v_123 wf_v_123 I).
  reflexivity.
Defined.


(** [insert(begin() + 2, {8, 9})] into the full container {1, 2, 3}. *)
Lemma insert_list_places_elements_witness :
  ∃ v', insert_list 2 [8; 9]%Z v_123 = (Ok 2%Z, v') ∧
    live v' = take 2 (live v_123) ++ [8; 9]%Z ++ drop 2 (live v_123).
Proof.
  destruct (insert_list_places_elements v_123 2 [8; 9]%Z wf_v_123)
    as (v' & E & _ & _ & Hl & _); [simpl; lia | left; vm_compute; lia |].
  by exists v'.
Defined.

(** [insert(begin(), ...)] of {8, 9} into {1, 2, 3}, by range and by
    initializer list. *)
Lemma insert_elements_reads_before_buffer_witness :
  (insert_range 0 [8; 9]%Z v_123).1 = Fault (-1) ∧
  (insert_list 0 [8; 9]%Z v_123).1 = Fault (-1).
Proof.
  destruct (insert_elements_reads_before_buffer v_123 0 [8; 9]%Z wf_v_123)
    as [Hr Hl]; [simpl; lia|].
  split; [apply Hr; simpl; lia | apply Hl; [simpl; lia | left; vm_compute; lia]].
Defined.




(** [reserve(2)], [reserve(8)] and [reserve(2^62)] on {1, 2, 3}, with
    arrays granted below 2^61 elements. *)
Lemma reserve_keeps_elements_witness :
  reserve_alloc (grants_below (2 ^ 61)) 2 v_123 = (Ok tt, v_123) ∧
  (∃ v', reserve_alloc (grants_below (2 ^ 61)) 8 v_123 = (Ok tt, v') ∧
     wf v' ∧ live v' = live v_123 ∧ size v' = size v_123 ∧ capacity v' = 8) ∧
  reserve_alloc (grants_below (2 ^ 61)) (2 ^ 62) v_123
    = (Throw bad_alloc, v_123).
Proof.
  split; [|split].
  - exact (reserve_keeps_elements (grants_below (2 ^ 61)) v_123 2 wf_v_123).
  - exact (reserve_keeps_elements (grants_below (2 ^ 61)) v_123 8 wf_v_123).
  - exact (reserve_keeps_elements (grants_below (2 ^ 61)) v_123 (2 ^ 62)
             wf_v_123).
Defined.

(** [push_back(4)] on the full container {1, 2, 3}, [v.push_back(v[0])]
    on a container of size 3 and capacity 10, and [v.push_back(v[0])] on
    the full container {1, 2, 3}. *)
Lemma push_back_appends_witness :
  (∃ v', push_back_ref (Outside 4%Z) v_123 = (Ok tt, v') ∧
     live v' = [1; 2; 3; 4]%Z ∧ capacity v' = 6) ∧
  (∃ v', push_back_ref (Slot 0) v_pushed = (Ok tt, v') ∧
     live v' = [1; 2; 3; 1]%Z ∧ capacity v' = 10) ∧
  (∃ v', push_back_ref (Slot 0) v_123 = (Fault 0, v') ∧
     live v' = [1; 2; 3]%Z ∧ capacity v' = 6).
Proof.
  destruct (push_back_appends v_123 wf_v_123) as (H1 & _ & H3).
  destruct (push_back_appends v_pushed wf_v_pushed) as (_ & H2 & _).
  split; [|split].
  - destruct (H1 4%Z) as (v' & E & _ & Hl & _ & _ & _ & Hc).
    exists v'. by repeat split.
  - destruct (H2 0 1%Z) as (v' & E & _ & Hl & _ & _ & Hc);
      [vm_compute; lia | reflexivity |].
    exists v'. by repeat split.
  - destruct (H3 0%Z) as (v' & E & _ & Hl & _ & Hc); [reflexivity|].
    exists v'. by repeat split.
Defined.

(** [push_front(0)] and [v.push_front(v[1])] on a container of size 3 and
    capacity 10, and [v.push_front(v[1])] on the full container
    {1, 2, 3}. *)
Lemma push_front_prepends_witness :
  (∃ v', push_front_ref (Outside 0%Z) v_pushed = (Ok tt, v') ∧
     live v' = [0; 1; 2; 3]%Z ∧ capacity v' = 10) ∧
  (∃ v', push_front_ref (Slot 1) v_pushed = (Ok tt, v') ∧
     live v' = [1; 1; 2; 3]%Z ∧ capacity v' = 10) ∧
  (∃ v', push_front_ref (Slot 1) v_123 = (Fault 1, v') ∧
     size v' = 3 ∧ capacity v' = 6).
Proof.
  destruct (push_front_prepends v_123 wf_v_123) as (_ & _ & H3).
  destruct (push_front_prepends v_pushed wf_v_pushed) as (H1 & H2 & _).
  split; [|split].
  - destruct (H1 0%Z) as (v' & E & _ & Hl & _ & _ & Hc).
    exists v'. by repeat split.
  - destruct (H2 1 1%Z) as (v' & E & _ & Hl & _ & _ & Hc);
      [vm_compute; lia | vm_compute; lia | reflexivity |].
    exists v'. by repeat split.
  - destruct (H3 1%Z) as (v' & E & _ & Hs & Hc & _); [reflexivity|].
    exists v'. by repeat split.
Defined.

(** [insert(begin(), 9)] and [v.insert(v.begin(), v[2])] on a container of
    size 3 and capacity 10, and [v.insert(v.begin(), v[2])] on the full
    container {1, 2, 3}. *)
Lemma insert_places_value_witness :
  (∃ v', insert_ref 0 (Outside 9%Z) v_pushed = (Ok 0%Z, v') ∧
     live v' = [9; 1; 2; 3]%Z ∧ capacity v' = 10) ∧
  (∃ v', insert_ref 0 (Slot 2) v_pushed = (Ok 0%Z, v') ∧
     live v' = [2; 1; 2; 3]%Z ∧ capacity v' = 10) ∧
  (∃ v', insert_ref 0 (Slot 2) v_123 = (Fault 2, v') ∧
     size v' = 4 ∧ capacity v' = 6).
Proof.
  destruct (insert_places_value v_123 0 wf_v_123) as (_ & _ & H3);
    [vm_compute; lia | simpl; lia |].
  destruct (insert_places_value v_pushed 0 wf_v_pushed) as (H1 & H2 & _);
    [vm_compute; lia | simpl; lia |].
  split; [|split].
  - destruct (H1 9%Z) as (v' & E & _ & _ & Hl & _ & Hc).
    exists v'. by repeat split.
  - destruct (H2 2 2%Z) as (v' & E & _ & _ & Hl & _ & Hc);
      [vm_compute; lia | vm_compute; lia | reflexivity |].
    exists v'. by repeat split.
  - destruct (H3 2%Z) as (v' & E & _ & Hs & Hc); [reflexivity|].
    exists v'. by repeat split.
Defined.

(** {1, 2, 3} with capacity 3 and with capacity 10. *)
Lemma vec_eq_equivalence_witness :
  (∃ r : bool, vec_eq v_123 v_pushed = Ok r) ∧
  vec_eq v_123 v_123 = Ok true ∧
  vec_eq v_123 v_pushed = vec_eq v_pushed v_123.
Proof.
  destruct (vec_eq_equivalence v_123 v_pushed v_123
              wf_v_123 wf_v_pushed wf_v_123) as (Hv & Hr & Hs & _).
  by repeat split.
Defined.

(** [assign(2^32, 7)] on {1, 2, 3}, with arrays granted below 2^61
    elements, after 1000 rounds of the loop. *)
Lemma assign_counter_wraps_witness :
  ∃ v',
    assign_ref (grants_below (2 ^ 61)) 1000 (2 ^ 32) (Outside 7%Z) v_123
      = (Ok None, v') ∧
    size v' = N.to_nat (2 ^ 32).
Proof.
  apply (assign_counter_wraps (grants_below (2 ^ 61)) v_123 (2 ^ 32) 7%Z
           wf_v_123); [lia | simpl; lia | reflexivity].
Defined.

(** [v.assign(5, v[0])] on {1, 2, 3}. *)
Lemma assign_reads_freed_buffer_witness :
  assign_ref (grants_below (2 ^ 61)) 10 5 (Slot 0) v_123 =
    (Fault 0, mk_vector 5 5 [1; 1; 1; 1; 1]%Z).
Proof.
  refine (assign_reads_freed_buffer (grants_below (2 ^ 61)) 10 v_123 5 0
            _ _ _); [simpl; lia | reflexivity | lia].
Defined.

End sc.
